(** * DepthChart: the order-book depth chart of the RoboSats frontend

    A shallow embedding of [frontend/src/components/Charts/DepthChart/index.tsx]
    and the properties of its three stages: the normalizer effect, the series
    builder ([generateSeries], [generateSerie]) and the closer ([closeSerie]),
    together with the window effect and the zoom buttons.

    JavaScript numbers are modelled by [number]: the special values [NaN],
    [PosInf] and [NegInf] behave as in ECMAScript, finite values are exact
    rationals.  Binary64 rounding and the sign of zero are not modelled; every
    concrete evaluation below uses values on which binary64 arithmetic is
    exact.  Order objects are shared between the federation's book and the
    component, so they live in a store and are handled by reference. *)

From Stdlib Require Import ZArith QArith Qround Lia Sorted.
From stdpp Require Import base option list sorting gmap strings.

Open Scope Z_scope.

(** ** JavaScript numbers *)

Module JS.

Inductive number : Type :=
| NaN
| NegInf
| Fin (q : Q)
| PosInf.

Definition ofZ (z : Z) : number := Fin (inject_Z z).

Definition neg (a : number) : number :=
  match a with
  | NaN => NaN
  | NegInf => PosInf
  | Fin q => Fin (Qred (- q))
  | PosInf => NegInf
  end.

(** [a + b] *)
Definition add (a b : number) : number :=
  match a, b with
  | NaN, _ | _, NaN => NaN
  | PosInf, NegInf | NegInf, PosInf => NaN
  | PosInf, _ | _, PosInf => PosInf
  | NegInf, _ | _, NegInf => NegInf
  | Fin x, Fin y => Fin (Qred (x + y))
  end.

(** [a - b] *)
Definition sub (a b : number) : number :=
  match a, b with
  | NaN, _ | _, NaN => NaN
  | PosInf, PosInf | NegInf, NegInf => NaN
  | PosInf, _ | _, NegInf => PosInf
  | NegInf, _ | _, PosInf => NegInf
  | Fin x, Fin y => Fin (Qred (x - y))
  end.

(** An infinity times the finite [q]: the sign follows [q], and [q = 0]
    gives [NaN]. *)
Definition scaleInf (positive_inf : bool) (q : Q) : number :=
  match (q ?= 0)%Q with
  | Eq => NaN
  | Gt => if positive_inf then PosInf else NegInf
  | Lt => if positive_inf then NegInf else PosInf
  end.

(** [a * b] *)
Definition mul (a b : number) : number :=
  match a, b with
  | NaN, _ | _, NaN => NaN
  | Fin x, Fin y => Fin (Qred (x * y))
  | Fin x, PosInf | PosInf, Fin x => scaleInf true x
  | Fin x, NegInf | NegInf, Fin x => scaleInf false x
  | PosInf, PosInf | NegInf, NegInf => PosInf
  | PosInf, NegInf | NegInf, PosInf => NegInf
  end.

(** [a / b]; a zero divisor is the positive zero. *)
Definition div (a b : number) : number :=
  match a, b with
  | NaN, _ | _, NaN => NaN
  | Fin x, Fin y =>
      if Qeq_bool y 0 then scaleInf true x else Fin (Qred (x / y))
  | Fin _, PosInf | Fin _, NegInf => Fin 0
  | PosInf, Fin y => if Qle_bool 0 y then PosInf else NegInf
  | NegInf, Fin y => if Qle_bool 0 y then NegInf else PosInf
  | PosInf, PosInf | PosInf, NegInf | NegInf, PosInf | NegInf, NegInf => NaN
  end.

(** [a < b]: false as soon as one side is [NaN]. *)
Definition ltb (a b : number) : bool :=
  match a, b with
  | NaN, _ | _, NaN => false
  | _, NegInf => false
  | NegInf, _ => true
  | PosInf, _ => false
  | Fin _, PosInf => true
  | Fin x, Fin y => negb (Qle_bool y x)
  end.

(** [a > b] *)
Definition gtb (a b : number) : bool := ltb b a.

(** [a <= b]: false as soon as one side is [NaN]. *)
Definition leb (a b : number) : bool :=
  match a, b with
  | NaN, _ | _, NaN => false
  | NegInf, _ => true
  | _, NegInf => false
  | _, PosInf => true
  | PosInf, _ => false
  | Fin x, Fin y => Qle_bool x y
  end.

(** [a === b] on numbers: [NaN] is different from itself. *)
Definition eqb (a b : number) : bool :=
  match a, b with
  | NegInf, NegInf | PosInf, PosInf => true
  | Fin x, Fin y => Qeq_bool x y
  | _, _ => false
  end.

(** [a !== b] *)
Definition neqb (a b : number) : bool := negb (eqb a b).

Definition isNaN (a : number) : bool :=
  match a with NaN => true | _ => false end.

(** [Number(v)] for a value that is a number or [undefined]. *)
Definition Number (v : option number) : number :=
  match v with Some n => n | None => NaN end.

(** [v ?? d] for a value that is a number or [undefined]. *)
Definition nullish (v : option number) (d : number) : number :=
  match v with Some n => n | None => d end.

(** ToInt32: truncate toward zero, then wrap modulo 2^32 into
    [-2^31, 2^31); [NaN] and the infinities go to 0. *)
Definition wrap32 (z : Z) : Z :=
  let m := z mod 2 ^ 32 in
  if 2 ^ 31 <=? m then m - 2 ^ 32 else m.

Definition truncate (q : Q) : Z := Z.quot (Qnum q) (Zpos (Qden q)).

Definition toInt32 (a : number) : Z :=
  match a with
  | Fin q => wrap32 (truncate q)
  | _ => 0
  end.

(** [~~v]: two bitwise complements, each on the ToInt32 image. *)
Definition bitnot (z : Z) : Z := wrap32 (Z.lnot z).

Definition double_tilde (v : option number) : number :=
  ofZ (bitnot (bitnot (toInt32 (Number v)))).

End JS.

Import JS.

(** ** Data model *)

(** [PublicOrder] (declared in [models], of which the chart reads these
    fields).  [satoshis_now], [coordinatorShortAlias] and [base_amount] may be
    absent. *)
Module Order.
Record PublicOrder : Type := mk {
  id : Z;
  type : Z;
  price : number;
  premium : number;
  satoshis_now : option number;
  coordinatorShortAlias : option string;
  base_amount : option number
}.

(** [order.base_amount = v] *)
Definition set_base_amount (v : number) (o : PublicOrder) : PublicOrder :=
  mk (id o) (type o) (price o) (premium o) (satoshis_now o)
     (coordinatorShortAlias o) (Some v).
End Order.
Abbreviation PublicOrder := Order.PublicOrder.

Module Limit.
Record t : Type := mk { price : number }.
End Limit.

Module Coordinator.
(** [limits] is an object keyed by currency code. *)
Record t : Type := mk { limits : gmap Z Limit.t }.
End Coordinator.

(** Order objects live in a store and are passed around by reference: the
    book of the federation and the [enrichedOrders] state hold references. *)
Definition ref : Type := positive.
Abbreviation store := (gmap ref PublicOrder).

(** What the component reads of the federation context. *)
Module Federation.
Record t : Type := mk {
  book : list ref;
  getCoordinator : string -> option Coordinator.t;
  last_day_nonkyc_btc_premium : option number
}.
End Federation.

(** nivo's [Datum]: [x] is a number or [undefined]; [order] is set on the
    order point only. *)
Module Datum.
Record t : Type := mk {
  x : option number;
  y : number;
  order : option PublicOrder
}.
End Datum.
Abbreviation Datum := Datum.t.

Module Serie.
Record t : Type := mk { id : string; data : list Datum }.
End Serie.
Abbreviation Serie := Serie.t.

(** The component's state cells. *)
Record State : Type := mkState {
  enrichedOrders : list ref;
  series : list Serie;
  rangeSteps : number;
  xRange : number;
  xType : string;
  currencyCode : Z;
  center : option number
}.

(** The [useState] initial values. *)
Definition initialState : State :=
  {| enrichedOrders := []; series := []; rangeSteps := ofZ 8; xRange := ofZ 8;
     xType := "premium"; currencyCode := 1; center := None |}.

Definition setEnrichedOrders (v : list ref) (st : State) : State :=
  mkState v (series st) (rangeSteps st) (xRange st) (xType st)
          (currencyCode st) (center st).
Definition setSeries (v : list Serie) (st : State) : State :=
  mkState (enrichedOrders st) v (rangeSteps st) (xRange st) (xType st)
          (currencyCode st) (center st).
Definition setRangeSteps (v : number) (st : State) : State :=
  mkState (enrichedOrders st) (series st) v (xRange st) (xType st)
          (currencyCode st) (center st).
Definition setXRange (v : number) (st : State) : State :=
  mkState (enrichedOrders st) (series st) (rangeSteps st) v (xType st)
          (currencyCode st) (center st).
Definition setXType (v : string) (st : State) : State :=
  mkState (enrichedOrders st) (series st) (rangeSteps st) (xRange st) v
          (currencyCode st) (center st).
Definition setCurrencyCode (v : Z) (st : State) : State :=
  mkState (enrichedOrders st) (series st) (rangeSteps st) (xRange st)
          (xType st) v (center st).
Definition setCenter (v : option number) (st : State) : State :=
  mkState (enrichedOrders st) (series st) (rangeSteps st) (xRange st)
          (xType st) (currencyCode st) v.

(** ** Store-passing computations that may throw *)

Inductive exn : Type := TypeError.

Inductive outcome (A : Type) : Type :=
| Returned (a : A)
| Thrown (e : exn).
Arguments Returned {A} a.
Arguments Thrown {A} e.

Definition M (A : Type) : Type := store -> store * outcome A.

Definition ret {A} (a : A) : M A := fun s => (s, Returned a).
Definition throw {A} (e : exn) : M A := fun s => (s, Thrown e).
Definition bind {A B} (c : M A) (k : A -> M B) : M B :=
  fun s =>
    match c s with
    | (s', Returned a) => k a s'
    | (s', Thrown e) => (s', Thrown e)
    end.

Notation "'let*' x ':=' c 'in' k" := (bind c (fun x => k))
  (at level 10, x name, c at level 100, k at level 200).
Notation "'do' c 'in' k" := (bind c (fun _ => k))
  (at level 10, c at level 100, k at level 200).

(** Reading through a reference; a missing object is [undefined], and a
    property access on it throws. *)
Definition load (r : ref) : M PublicOrder :=
  fun s => match s !! r with
           | Some o => (s, Returned o)
           | None => (s, Thrown TypeError)
           end.

Definition write (r : ref) (o : PublicOrder) : M unit :=
  fun s => (<[r := o]> s, Returned tt).

(** [xs.map(f)]: left to right, stopping at the first throw. *)
Fixpoint mapM {A B} (f : A -> M B) (xs : list A) : M (list B) :=
  match xs with
  | [] => ret []
  | a :: xs' => let* b := f a in let* bs := mapM f xs' in ret (b :: bs)
  end.

(** ** The normalizer effect *)

(** The conversion rate of a coordinator for a currency:
    [limits[currencyCode] ? limits[currencyCode].price : 0]. *)
Definition rate (c : Coordinator.t) (code : Z) : number :=
  match Coordinator.limits c !! code with
  | Some l => Limit.price l
  | None => ofZ 0
  end.

(** The callback of [federation.book.map]. *)
Definition enrich (federation : Federation.t) (code : Z) (r : ref) : M ref :=
  let* order := load r in
  match Order.coordinatorShortAlias order with
  | Some alias =>
      match Federation.getCoordinator federation alias with
      | Some c =>
          let price := rate c code in
          do write r (Order.set_base_amount
                        (div (mul (Order.price order) price) price) order)
          in ret r
      | None => throw TypeError
      end
  | None => ret r
  end.

Definition normalizerEffect (federation : Federation.t) (st : State) : M State :=
  if (0 <? Z.of_nat (length (Federation.book federation)))
  then
    let* enriched := mapM (enrich federation (currencyCode st))
                          (Federation.book federation) in
    ret (setEnrichedOrders enriched st)
  else ret st.

(** [setCurrencyCode(fav.currency === 0 ? 1 : fav.currency)] *)
Definition currencyEffect (fav_currency : Z) (st : State) : State :=
  setCurrencyCode (if fav_currency =? 0 then 1 else fav_currency) st.

(** ** Sorting *)

(** [Array.prototype.sort(comparefn)] as a stable insertion sort: [a] goes
    after [b] when [comparefn(a, b) > 0].  For a consistent comparator every
    conforming engine returns this list; when the comparator yields [NaN]
    (a [NaN] or two equal infinite keys) ECMAScript leaves the order to the
    engine, and this list need not be the engine's.  Statements that depend
    on the order therefore assume finite keys. *)
Section Sort.
Context {A : Type} (comparefn : A -> A -> number).

Fixpoint insertSorted (a : A) (l : list A) : list A :=
  match l with
  | [] => [a]
  | b :: l' =>
      if gtb (comparefn a b) (ofZ 0) then b :: insertSorted a l' else a :: l
  end.

Definition sort (l : list A) : list A := foldr insertSorted [] l.
End Sort.

(** ** The series builder *)

Definition isBaseAmount (st : State) : bool := String.eqb (xType st) "base_amount".

(** [xType === 'base_amount' ? order.base_amount : order.premium] *)
Definition metric (st : State) (order : PublicOrder) : option number :=
  if isBaseAmount st then Order.base_amount order
  else Some (Order.premium order).

(** [(order.satoshis_now ?? 0) / 100000000] *)
Definition volume (order : PublicOrder) : number :=
  div (nullish (Order.satoshis_now order) (ofZ 0)) (ofZ 100000000).

(** One turn of the [forEach] body on the two mutable locals
    [(sumOrders, serie)]. *)
Definition emitOrder (st : State) (acc : number * list Datum)
    (order : PublicOrder) : number * list Datum :=
  let '(sumOrders, serie) := acc in
  let lastSumOrders := sumOrders in
  let sumOrders := add sumOrders (volume order) in
  let datum :=
    [ Datum.mk (metric st order) lastSumOrders None;
      Datum.mk (metric st order) sumOrders (Some order) ] in
  (sumOrders, serie ++ datum).

(** The predicate of [serie.filter]. *)
Definition inWindow (c : number) (st : State) (datum : Datum) : bool :=
  gtb (Number (Datum.x datum)) (sub c (xRange st))
  && ltb (Number (Datum.x datum)) (add c (xRange st)).

Definition generateSerie (st : State) (orders : list PublicOrder) : list Datum :=
  match center st with
  | None => []
  | Some c =>
      let '(_, serie) := fold_left (emitOrder st) orders (ofZ 0, []) in
      List.filter (inWindow c st) serie
  end.

(** ** The closer *)

Definition closeSerie (serie : list Datum) (limitBottom limitTop : number)
    : list Datum :=
  match serie with
  | [] => []
  | first :: _ =>
      let serie :=
        if neqb (Datum.y first) (ofZ 0)
        then Datum.mk (Some limitBottom) (Datum.y first) None :: serie
        else serie in
      let endingPoint :=
        Datum.mk (Some limitTop) (Datum.y (List.last serie first)) None in
      serie ++ [endingPoint]
  end.

(** ** [generateSeries] *)

(** The objects behind a list of references, each with its reference. *)
Definition resolve (s : store) (rs : list ref) : list (ref * PublicOrder) :=
  omap (fun r => pair r <$> s !! r) rs.

Definition byBaseAmount (o1 o2 : ref * PublicOrder) : number :=
  sub (nullish (Order.base_amount o1.2) (ofZ 0))
      (nullish (Order.base_amount o2.2) (ofZ 0)).

Definition byPremium (o1 o2 : ref * PublicOrder) : number :=
  sub (Order.premium o1.2) (Order.premium o2.2).

Definition sortedOrders (s : store) (st : State) : list (ref * PublicOrder) :=
  if isBaseAmount st
  then sort byBaseAmount (resolve s (enrichedOrders st))
  else sort byPremium (resolve s (enrichedOrders st)).

Definition sortedBuyOrders (s : store) (st : State) : list PublicOrder :=
  rev (List.filter (fun o => Order.type o =? 0) (map snd (sortedOrders s st))).

Definition sortedSellOrders (s : store) (st : State) : list PublicOrder :=
  List.filter (fun o => Order.type o =? 1) (map snd (sortedOrders s st)).

(** The sort is in place: the [enrichedOrders] array is left reordered. *)
Definition generateSeries (s : store) (st : State) : State :=
  let buySerie := generateSerie st (sortedBuyOrders s st) in
  let sellSerie := generateSerie st (sortedSellOrders s st) in
  let maxX := add (nullish (center st) (ofZ 0)) (xRange st) in
  let minX := sub (nullish (center st) (ofZ 0)) (xRange st) in
  setSeries
    [ Serie.mk "buy" (closeSerie buySerie maxX minX);
      Serie.mk "sell" (closeSerie sellSerie minX maxX) ]
    (setEnrichedOrders (map fst (sortedOrders s st)) st).

Definition seriesEffect (s : store) (st : State) : State :=
  if 0 <? Z.of_nat (length (enrichedOrders st)) then generateSeries s st else st.

(** ** The window effect *)

(** [order?.base_amount ?? 0] and [order?.premium ?? 0] through a reference. *)
Definition baseAmountOr0 (s : store) (r : ref) : number :=
  match s !! r with
  | Some order => nullish (Order.base_amount order) (ofZ 0)
  | None => ofZ 0
  end.

Definition premiumOr0 (s : store) (r : ref) : number :=
  match s !! r with
  | Some order => Order.premium order
  | None => ofZ 0
  end.

(** [prices.sort((a, b) => b - a).slice(0, 1)[0] ?? 1500]; for finite
    prices this is their maximum, see the note on [sort] for the others. *)
Definition maxValue (prices : list number) : number :=
  match sort (fun a b => sub b a) prices with
  | v :: _ => v
  | [] => ofZ 1500
  end.

Section WindowEffect.
(** [matchMedian] comes from [utils]; the effect is read for any function
    of its type. *)
Variable matchMedian : list number -> option number.

Definition windowEffect (federation : Federation.t) (s : store) (st : State)
    : State :=
  if isBaseAmount st then
    let prices := map (baseAmountOr0 s) (enrichedOrders st) in
    let medianValue := double_tilde (matchMedian prices) in
    let maxRange := sub (maxValue prices) medianValue in
    let rangeSteps := div maxRange (ofZ 10) in
    setRangeSteps rangeSteps (setXRange maxRange (setCenter (Some medianValue) st))
  else
    let st :=
      match Federation.last_day_nonkyc_btc_premium federation with
      | None =>
          let premiums := map (premiumOr0 s) (enrichedOrders st) in
          setCenter (Some (double_tilde (matchMedian premiums))) st
      | Some v => setCenter (Some v) st
      end in
    setRangeSteps (Fin (1 # 2)) (setXRange (ofZ 8) st).
End WindowEffect.

(** ** The zoom buttons *)

Record IconButton : Type := mkButton {
  onClick : State;      (* the state the handler sets *)
  disabled : bool
}.

(** The [RemoveCircleOutline] button: widens the window; it has no
    [disabled] property. *)
Definition removeButton (st : State) : IconButton :=
  {| onClick := setXRange (add (xRange st) (rangeSteps st)) st;
     disabled := false |}.

(** The [AddCircleOutline] button: narrows the window. *)
Definition addButton (st : State) : IconButton :=
  {| onClick := setXRange (sub (xRange st) (rangeSteps st)) st;
     disabled := leb (xRange st) (ofZ 1) |}.

(** A click on a disabled button is not delivered. *)
Definition click (button : State -> IconButton) (st : State) : State :=
  if disabled (button st) then st else onClick (button st).

(** The chart is replaced by the progress indicator when
    [center === undefined || enrichedOrders.length < 1]. *)
Definition loading (st : State) : bool :=
  match center st with None => true | Some _ => false end
  || (Z.of_nat (length (enrichedOrders st)) <? 1).

(** ** The first commit *)

(** Every effect runs after the first render, in source order, each on the
    state of that render; the cells they set make the state of the next
    render.  [fav_currency] is [fav.currency]. *)
Definition mountEffects (matchMedian : list number -> option number)
    (federation : Federation.t) (fav_currency : Z) (st : State) : M State :=
  let st1 := currencyEffect fav_currency st in
  let* st2 := normalizerEffect federation st in
  fun s =>
    let st3 := seriesEffect s st in
    let st4 := windowEffect matchMedian federation s st in
    (s, Returned
          (mkState
             (if 0 <? Z.of_nat (length (Federation.book federation))
              then enrichedOrders st2 else enrichedOrders st3)
             (series st3) (rangeSteps st4) (xRange st4) (xType st)
             (currencyCode st1) (center st4))).

(** ** Notions used in the statements *)

(** Modelled from the spec: [matchMedian] of [utils] is not among the sources;
    the spec calls its result the median of the list.  It is taken here as the
    middle element of the ascending sort, the mean of the two middle elements
    for an even length, and [undefined] for the empty list. *)
Definition matchMedian (values : list number) : option number :=
  let sorted := sort (fun a b => sub a b) values in
  let n := length sorted in
  if (n =? 0)%nat then None
  else if Nat.odd n then sorted !! (n / 2)%nat
  else
    match sorted !! (n / 2 - 1)%nat, sorted !! (n / 2)%nat with
    | Some a, Some b => Some (div (add a b) (ofZ 2))
    | _, _ => None
    end.

(** The running sum after a list of orders, starting from [sum]. *)
Definition sumFrom (sum : number) (orders : list PublicOrder) : number :=
  fold_left (fun acc order => add acc (volume order)) orders sum.

Definition sumVolumes (orders : list PublicOrder) : number :=
  sumFrom (ofZ 0) orders.

(** The local [serie] at the end of the [forEach], before the filter, when
    the loop is entered with [sumOrders = sum]. *)
Definition serieFrom (st : State) (sum : number) (orders : list PublicOrder)
    : list Datum :=
  (fold_left (emitOrder st) orders (sum, [])).2.

Definition emittedSerie (st : State) (orders : list PublicOrder) : list Datum :=
  serieFrom st (ofZ 0) orders.

(** The two points of one order, by recursion on the list. *)
Fixpoint emitted (st : State) (sum : number) (orders : list PublicOrder)
    : list Datum :=
  match orders with
  | [] => []
  | order :: rest =>
      Datum.mk (metric st order) sum None
      :: Datum.mk (metric st order) (add sum (volume order)) (Some order)
      :: emitted st (add sum (volume order)) rest
  end.

(** The metric of an order lies in the visible window. *)
Definition orderInWindow (c : number) (st : State) (order : PublicOrder) : bool :=
  inWindow c st (Datum.mk (metric st order) (ofZ 0) None).

(** [satoshis_now] is absent or a non-negative amount. *)
Definition validVolume (order : PublicOrder) : bool :=
  match Order.satoshis_now order with
  | None => true
  | Some (Fin q) => Qle_bool 0 q
  | Some _ => false
  end.

(** Each element is [<=] the next one. *)
Fixpoint nondecreasing (ys : list number) : bool :=
  match ys with
  | a :: (b :: _) as rest => leb a b && nondecreasing rest
  | _ => true
  end.

(** The [y] of the first point is [<=] the [y] of the second. *)
Definition leY (d1 d2 : Datum) : Prop := leb (Datum.y d1) (Datum.y d2) = true.

Definition isFinite (a : number) : bool :=
  match a with Fin _ => true | _ => false end.

(** Two order objects that differ at most in [base_amount]. *)
Definition sameButBaseAmount (o o' : PublicOrder) : Prop :=
  Order.id o' = Order.id o /\ Order.type o' = Order.type o
  /\ Order.price o' = Order.price o /\ Order.premium o' = Order.premium o
  /\ Order.satoshis_now o' = Order.satoshis_now o
  /\ Order.coordinatorShortAlias o' = Order.coordinatorShortAlias o.

(** What the normalizer writes into an order of a known coordinator. *)
Definition normalized (federation : Federation.t) (code : Z) (o : PublicOrder)
    : option PublicOrder :=
  match Order.coordinatorShortAlias o with
  | None => Some o
  | Some alias =>
      match Federation.getCoordinator federation alias with
      | Some c =>
          Some (Order.set_base_amount
                  (div (mul (Order.price o) (rate c code)) (rate c code)) o)
      | None => None
      end
  end.

(** The store [s] agrees with the original store [s0] outside the visited
    references [V] and holds the normalized objects at them. *)
Definition visitedInv (federation : Federation.t) (code : Z)
    (s0 s : store) (V : list ref) : Prop :=
  forall r : ref,
    (r ∈ V -> exists o o', s0 !! r = Some o
                           /\ normalized federation code o = Some o'
                           /\ s !! r = Some o')
    /\ (r ∉ V -> s !! r = s0 !! r).

(** ** Sample data *)

Module Sample.

Definition order (id type : Z) (price premium : Z) (sats : Z)
    (alias : option string) : PublicOrder :=
  Order.mk id type (ofZ price) (ofZ premium) (Some (ofZ sats)) alias None.

(** A coordinator that publishes limits for currency 1 only. *)
Definition coordinator : Coordinator.t :=
  Coordinator.mk {[ 1 := Limit.mk (ofZ 60000) ]}.

Definition federation (book : list ref) : Federation.t :=
  Federation.mk book
    (fun alias => if String.eqb alias "exp" then Some coordinator else None)
    None.

(** A buy order at 50000 from the coordinator [exp]. *)
Definition o1 : PublicOrder := order 1 0 50000 (-2) 100000000 (Some "exp").
(** A sell order without coordinator alias. *)
Definition o2 : PublicOrder := order 2 1 51000 3 200000000 None.

Definition book2 : store := {[ 1%positive := o1; 2%positive := o2 ]}.

(** Premium mode, window (-8, 8) around 0. *)
Definition premiumState : State :=
  mkState [] [] (Fin (1 # 2)) (ofZ 8) "premium" 1 (Some (ofZ 0)).

(** Price mode, window (40000, 60000). *)
Definition priceState : State :=
  mkState [] [] (ofZ 1000) (ofZ 10000) "base_amount" 1 (Some (ofZ 50000)).

(** Two sell orders in ascending premium; the first one lies left of the
    window of [premiumState]. *)
Definition sellFar : PublicOrder := order 3 1 40000 (-10) 100000000 None.
Definition sellNear : PublicOrder := order 4 1 51000 3 200000000 None.

(** An order whose [base_amount] was set to its price. *)
Definition priced (o : PublicOrder) : PublicOrder :=
  Order.set_base_amount (Order.price o) o.

(** Two priced orders, at 50000 and 51000. *)
Definition pricedBook : store :=
  {[ 1%positive := priced o1; 2%positive := priced o2 ]}.


(** Two more orders, and a book of two buy and two sell orders. *)
Definition o3 : PublicOrder := order 7 0 49000 (-5) 300000000 (Some "exp").
Definition o4 : PublicOrder := order 8 1 50500 1 50000000 None.
Definition book4 : store :=
  {[ 1%positive := o1; 2%positive := o2; 3%positive := o3; 4%positive := o4 ]}.

(** One order priced at 3 000 000 000 units of a weak currency. *)
Definition dong : PublicOrder :=
  priced (order 5 1 3000000000 1 100000000 None).
Definition dongBook : store := {[ 1%positive := dong ]}.

End Sample.


(** ** Layout and click handler *)

(** [maxHeight < 10 ? 10 : maxHeight] *)
Definition height (maxHeight : number) : number :=
  if ltb maxHeight (ofZ 10) then ofZ 10 else maxHeight.

(** [maxWidth < 10 ? 10 : maxWidth > 72.8 ? 72.8 : maxWidth] *)
Definition width (maxWidth : number) : number :=
  if ltb maxWidth (ofZ 10) then ofZ 10
  else if gtb maxWidth (Fin (364 # 5)) then Fin (364 # 5)
  else maxWidth.

(** [axisBottom.tickRotation], in degrees. *)
Definition tickRotation (st : State) (width : number) : number :=
  if isBaseAmount st
  then (if ltb width (ofZ 40) then ofZ 45 else ofZ 0)
  else if ltb width (ofZ 25) then ofZ 45 else ofZ 0.

(** [margin.bottom], for the font size [em]. *)
Definition marginBottom (st : State) (width em : number) : number :=
  if isBaseAmount st
  then (if ltb width (ofZ 40) then mul (Fin (27 # 10)) em
        else mul (Fin (178 # 100)) em)
  else if ltb width (ofZ 25) then mul (Fin (27 # 10)) em
  else mul (Fin (178 # 100)) em.

(** The arguments [handleOnClick] passes to [onOrderClicked]:
    [point.data?.order?.id] and [point.data?.order?.coordinatorShortAlias]. *)
Definition handleOnClick (data : Datum) : option Z * option string :=
  (Order.id <$> Datum.order data,
   Datum.order data ≫= Order.coordinatorShortAlias).

(** A sequence of clicks on the two zoom buttons. *)
Inductive zoomClick : Type := ClickRemove | ClickAdd.

Definition clickOn (z : zoomClick) (st : State) : State :=
  match z with
  | ClickRemove => click removeButton st
  | ClickAdd => click addButton st
  end.

Definition clicks (zs : list zoomClick) (st : State) : State :=
  fold_left (fun st z => clickOn z st) zs st.

(** ** Further notions used in the statements *)

(** The reference [r] holds an order that [enrich] can process: its alias is
    null or names a coordinator of the federation. *)
Definition enrichable (federation : Federation.t) (s : store) (r : ref) : bool :=
  match s !! r with
  | Some o =>
      match Order.coordinatorShortAlias o with
      | Some alias =>
          match Federation.getCoordinator federation alias with
          | Some _ => true
          | None => false
          end
      | None => true
      end
  | None => false
  end.

(** The key [generateSeries] sorts by. *)
Definition sortKey (st : State) (o : PublicOrder) : number :=
  if isBaseAmount st then nullish (Order.base_amount o) (ofZ 0)
  else Order.premium o.

(** No element is followed by one the comparator puts before it. *)
Fixpoint settled {A} (comparefn : A -> A -> number) (l : list A) : Prop :=
  match l with
  | a :: (b :: _) as rest =>
      gtb (comparefn a b) (ofZ 0) = false /\ settled comparefn rest
  | _ => True
  end.

(** The zoom state of premium mode: steps of one half, and a half-width
    that is a multiple of one half, at least 1. *)
Definition halfSteps (st : State) : Prop :=
  rangeSteps st = Fin (1 # 2)
  /\ exists (q : Q) (n : Z), xRange st = Fin q /\ 2 <= n /\ (q == n # 2)%Q.

(** The two points the spec assigns to the order [o] at position [i] of
    [orders]: at the order's metric, first the sum of the volumes of the
    orders before it, then that sum plus its own volume. *)
Definition stepOf (st : State) (orders : list PublicOrder) (i : nat)
    (o : PublicOrder) : list Datum :=
  let pre := sumVolumes (take i orders) in
  [ Datum.mk (metric st o) pre None;
    Datum.mk (metric st o) (add pre (volume o)) (Some o) ].

(** The same two points when the order's metric is inside the window, and no
    point otherwise. *)
Definition visibleStepOf (c : number) (st : State) (orders : list PublicOrder)
    (i : nat) (o : PublicOrder) : list Datum :=
  if orderInWindow c st o then stepOf st orders i o else [].

(** ** Facts about numbers *)

Lemma Qred_zero_compare (q : Q) : (q == 0)%Q -> (Qred q ?= 0)%Q = Eq.
Proof. intros H. apply Qeq_alt. now rewrite Qred_correct. Qed.

(** [(p * 0) / 0] is [NaN] whatever [p] is. *)
Lemma div_mul_zero (p : number) : div (mul p (ofZ 0)) (ofZ 0) = NaN.
Proof.
  destruct p as [| |x|]; try reflexivity.
  cbn. unfold scaleInf. rewrite Qred_zero_compare; [reflexivity|].
  unfold Qeq. cbn. lia.
Qed.

Lemma ltb_leb_false (a b : number) : leb a b = true -> ltb b a = false.
Proof.
  destruct a, b; cbn; try congruence. intros ->. reflexivity.
Qed.

(** ** The normalizer: what it writes *)

Lemma normalized_same federation code o o' :
  normalized federation code o = Some o' -> sameButBaseAmount o o'.
Proof.
  unfold normalized, sameButBaseAmount.
  destruct (Order.coordinatorShortAlias o) as [alias|] eqn:Ha.
  - destruct (Federation.getCoordinator federation alias); [|discriminate].
    intros [= <-]. cbn. now rewrite Ha.
  - intros [= <-]. now rewrite Ha.
Qed.

Lemma normalized_idem federation code o o' :
  normalized federation code o = Some o' ->
  normalized federation code o' = Some o'.
Proof.
  unfold normalized.
  destruct (Order.coordinatorShortAlias o) as [alias|] eqn:Ha.
  - destruct (Federation.getCoordinator federation alias) eqn:Hc; [|discriminate].
    intros [= <-]. cbn. rewrite Ha, Hc. reflexivity.
  - intros [= <-]. now rewrite Ha.
Qed.

(** [enrich] either throws before it writes anything, or leaves at [r] the
    normalized object. *)
Lemma enrich_run federation code r (s : store) :
  match s !! r with
  | None => enrich federation code r s = (s, Thrown TypeError)
  | Some o =>
      match normalized federation code o with
      | Some o' =>
          enrich federation code r s
          = ((match Order.coordinatorShortAlias o with
              | Some _ => <[r := o']> s
              | None => s
              end), Returned r)
      | None => enrich federation code r s = (s, Thrown TypeError)
      end
  end.
Proof.
  unfold enrich, bind, load, normalized.
  destruct (s !! r) as [o|] eqn:Hr; [|reflexivity].
  destruct (Order.coordinatorShortAlias o) as [alias|]; [|reflexivity].
  destruct (Federation.getCoordinator federation alias); reflexivity.
Qed.

Lemma enrich_inv federation code s0 (s : store) V r s' out :
  visitedInv federation code s0 s V ->
  enrich federation code r s = (s', out) ->
  (out = Returned r /\ visitedInv federation code s0 s' (r :: V))
  \/ (out = Thrown TypeError /\ s' = s).
Proof.
  intros HJ Hrun. pose proof (enrich_run federation code r s) as Hspec.
  destruct (s !! r) as [o|] eqn:Hr;
    [|rewrite Hspec in Hrun; injection Hrun as <- <-; now right].
  destruct (normalized federation code o) as [o'|] eqn:Hn;
    [|rewrite Hspec in Hrun; injection Hrun as <- <-; now right].
  rewrite Hspec in Hrun. injection Hrun as <- <-. left. split; [reflexivity|].
  (* the object read at [r] is the original one or its normalized form *)
  assert (Horig : exists o0, s0 !! r = Some o0
                             /\ normalized federation code o0 = Some o').
  { destruct (decide (r ∈ V)) as [Hin|Hout].
    - destruct (proj1 (HJ r) Hin) as (o0 & o0' & H0 & Hn0 & Hs).
      rewrite Hr in Hs. injection Hs as <-.
      exists o0. split; [assumption|].
      rewrite <- Hn. rewrite (normalized_idem _ _ _ _ Hn0) in Hn.
      injection Hn as <-. now rewrite (normalized_idem _ _ _ _ Hn0).
    - exists o. split; [|assumption]. rewrite <- Hr. symmetry. now apply HJ. }
  destruct Horig as (o0 & H0 & Hn0).
  assert (Hat : (match Order.coordinatorShortAlias o with
                 | Some _ => <[r := o']> s | None => s end) !! r = Some o').
  { destruct (Order.coordinatorShortAlias o) eqn:Ha.
    - apply lookup_insert_eq.
    - unfold normalized in Hn. rewrite Ha in Hn. now rewrite <- Hn. }
  assert (Hother : forall r', r' <> r ->
            (match Order.coordinatorShortAlias o with
             | Some _ => <[r := o']> s | None => s end) !! r' = s !! r').
  { intros r' Hne. destruct (Order.coordinatorShortAlias o); [|reflexivity].
    now apply lookup_insert_ne. }
  intros r'. split.
  - intros Hin. destruct (decide (r' = r)) as [->|Hne].
    + exists o0, o'. auto.
    + rewrite Hother by assumption. apply HJ.
      apply elem_of_cons in Hin as [?|?]; [contradiction|assumption].
  - intros Hout. rewrite not_elem_of_cons in Hout. destruct Hout as [Hne Hout].
    rewrite Hother by assumption. now apply HJ.
Qed.

Lemma mapM_enrich_inv federation code s0 rs :
  forall (s : store) V s' out,
    visitedInv federation code s0 s V ->
    mapM (enrich federation code) rs s = (s', out) ->
    (out = Returned rs /\ visitedInv federation code s0 s' (reverse rs ++ V))
    \/ (out = Thrown TypeError
        /\ exists V', visitedInv federation code s0 s' V'
                      /\ forall r, r ∈ V' -> r ∈ rs \/ r ∈ V).
Proof.
  induction rs as [|r rs IH]; intros s V s' out HJ Hrun.
  - injection Hrun as <- <-. left. split; [reflexivity|exact HJ].
  - cbn [mapM] in Hrun. unfold bind at 1 in Hrun.
    destruct (enrich federation code r s) as [s1 out1] eqn:He.
    destruct (enrich_inv _ _ _ _ _ _ _ _ HJ He) as [[-> HJ1]|[-> ->]].
    + unfold bind at 1 in Hrun.
      destruct (mapM (enrich federation code) rs s1) as [s2 out2] eqn:Hm.
      destruct (IH _ _ _ _ HJ1 Hm) as [[-> HJ2]|[-> (V' & HJ2 & Hsub)]].
      * injection Hrun as <- <-. left. split; [reflexivity|].
        rewrite reverse_cons. now rewrite <- app_assoc.
      * injection Hrun as <- <-. right. split; [reflexivity|].
        exists V'. split; [assumption|]. intros r' Hr'.
        destruct (Hsub r' Hr') as [?|Hc].
        -- left. now apply elem_of_cons; right.
        -- apply elem_of_cons in Hc as [->|?];
             [left; apply elem_of_cons; now left | now right].
    + injection Hrun as <- <-. right. split; [reflexivity|].
      exists V. split; [assumption|]. intros r' ?. now right.
Qed.

(** ** C1: an order whose coordinator has no rate for the currency *)

(** C1, as the code has it: when the order at [r] names a known coordinator
    that has no limits entry for the currency code, the rate falls back to 0,
    so the normalizer writes [base_amount = (price * 0) / 0 = NaN] into the
    order, whatever its price, and returns without throwing. *)
Theorem enrich_missing_rate federation code r (s : store) o alias c :
  s !! r = Some o ->
  Order.coordinatorShortAlias o = Some alias ->
  Federation.getCoordinator federation alias = Some c ->
  Coordinator.limits c !! code = None ->
  enrich federation code r s
  = (<[r := Order.set_base_amount NaN o]> s, Returned r).
Proof.
  intros Hr Ha Hc Hl. pose proof (enrich_run federation code r s) as Hrun.
  rewrite Hr in Hrun. unfold normalized in Hrun. rewrite Ha, Hc in Hrun.
  unfold rate in Hrun. rewrite Hl in Hrun. rewrite div_mul_zero in Hrun.
  exact Hrun.
Qed.

Lemma enrich_missing_rate_witness :
  enrich (Sample.federation [1%positive]) 2 1%positive Sample.book2
  = (<[1%positive := Order.set_base_amount NaN Sample.o1]> Sample.book2,
     Returned 1%positive).
Proof.
  apply (enrich_missing_rate (Sample.federation [1%positive]) 2 1%positive
           Sample.book2 Sample.o1 "exp" Sample.coordinator);
    reflexivity.
Defined.

(** C1 fails as stated: the order [o1] at price 50000 comes from a coordinator
    without limits for currency 2; its [base_amount] becomes [NaN], which is
    not its price ([NaN === 50000] is false). *)
Lemma missing_rate_is_not_pass_through :
  let s' := (enrich (Sample.federation [1%positive]) 2 1%positive Sample.book2).1 in
  (s' !! 1%positive ≫= Order.base_amount) = Some NaN
  /\ (s' !! 1%positive ≫= Order.base_amount) <> Some (Order.price Sample.o1)
  /\ eqb NaN (Order.price Sample.o1) = false.
Proof.
  cbv zeta. split; [|split].
  - vm_compute. reflexivity.
  - vm_compute. discriminate.
  - reflexivity.
Qed.

(** ** C2: the normalizer writes into the order objects of the book *)

(** C2 fails as stated: after a normalization pass over the sample book the
    store of order objects is not the one before: the object behind reference
    1, owned by the federation, has gained a [base_amount]. *)
Lemma normalizer_mutates_book :
  let federation := Sample.federation [1%positive; 2%positive] in
  let s' := (normalizerEffect federation initialState Sample.book2).1 in
  s' <> Sample.book2
  /\ (Sample.book2 !! 1%positive ≫= Order.base_amount) = None
  /\ (s' !! 1%positive ≫= Order.base_amount) = Some (ofZ 50000).
Proof.
  cbv zeta. split; [|split].
  - intros H.
    apply (f_equal (fun m : store => m !! 1%positive ≫= Order.base_amount)) in H.
    vm_compute in H. discriminate.
  - vm_compute. reflexivity.
  - vm_compute. reflexivity.
Qed.

(** C2, as the code has it: a pass that returns hands back the very
    references of the book (the output list aliases the input objects); every
    object of the book is overwritten in place by its normalized form, which
    differs from the original at most in [base_amount]; objects outside the
    book are untouched. *)
Theorem normalizerEffect_frame federation st (s s' : store) st' :
  Federation.book federation <> [] ->
  normalizerEffect federation st s = (s', Returned st') ->
  enrichedOrders st' = Federation.book federation
  /\ (forall r, r ∉ Federation.book federation -> s' !! r = s !! r)
  /\ (forall r, r ∈ Federation.book federation ->
        exists o o', s !! r = Some o
                     /\ normalized federation (currencyCode st) o = Some o'
                     /\ s' !! r = Some o'
                     /\ sameButBaseAmount o o').
Proof.
  intros Hne Hrun. unfold normalizerEffect in Hrun.
  destruct (Federation.book federation) as [|r0 rs] eqn:Hbook; [congruence|].
  change (0 <? Z.of_nat (length (r0 :: rs))) with true in Hrun.
  unfold bind in Hrun.
  destruct (mapM (enrich federation (currencyCode st)) (r0 :: rs) s)
    as [s1 out] eqn:Hm.
  assert (H0 : visitedInv federation (currencyCode st) s s []).
  { intros r. split; [intros Hin; inversion Hin | reflexivity]. }
  destruct (mapM_enrich_inv _ _ _ _ _ _ _ _ H0 Hm) as [[-> HJ]|[-> _]];
    [|discriminate].
  injection Hrun as <- <-. rewrite app_nil_r in HJ.
  split; [reflexivity|]. split.
  - intros r Hr. apply HJ. now rewrite elem_of_reverse.
  - intros r Hr. rewrite <- elem_of_reverse in Hr.
    destruct (proj1 (HJ r) Hr) as (o & o' & Ho & Hn & Ho').
    exists o, o'. repeat split; try assumption;
      now apply (normalized_same _ _ _ _ Hn).
Qed.

Lemma normalizerEffect_frame_witness :
  let federation := Sample.federation [1%positive; 2%positive] in
  let run := normalizerEffect federation initialState Sample.book2 in
  enrichedOrders (setEnrichedOrders [1%positive; 2%positive] initialState)
  = Federation.book federation
  /\ (forall r, r ∉ Federation.book federation -> run.1 !! r = Sample.book2 !! r)
  /\ (forall r, r ∈ Federation.book federation ->
        exists o o', Sample.book2 !! r = Some o
                     /\ normalized federation (currencyCode initialState) o = Some o'
                     /\ run.1 !! r = Some o'
                     /\ sameButBaseAmount o o').
Proof.
  cbv zeta.
  apply (normalizerEffect_frame (Sample.federation [1%positive; 2%positive])
           initialState Sample.book2).
  - discriminate.
  - vm_compute. reflexivity.
Defined.

(** ** The series builder: the loop as a recursion *)

Lemma fold_emitOrder st orders :
  forall sum serie,
    fold_left (emitOrder st) orders (sum, serie)
    = (sumFrom sum orders, serie ++ emitted st sum orders).
Proof.
  induction orders as [|o rest IH]; intros sum serie.
  - cbn. now rewrite app_nil_r.
  - cbn [fold_left emitOrder emitted]. rewrite IH. unfold sumFrom. cbn [fold_left].
    now rewrite <- app_assoc.
Qed.

Lemma serieFrom_emitted st sum orders :
  serieFrom st sum orders = emitted st sum orders.
Proof. unfold serieFrom. now rewrite fold_emitOrder. Qed.

Lemma generateSerie_filter st c orders :
  center st = Some c ->
  generateSerie st orders = List.filter (inWindow c st) (emittedSerie st orders).
Proof.
  intros Hc. unfold generateSerie, emittedSerie, serieFrom. rewrite Hc.
  now destruct (fold_left (emitOrder st) orders (ofZ 0, [])).
Qed.

Lemma sumFrom_app sum l1 l2 :
  sumFrom sum (l1 ++ l2) = sumFrom (sumFrom sum l1) l2.
Proof. unfold sumFrom. apply fold_left_app. Qed.

Lemma emitted_app st l1 : forall sum l2,
  emitted st sum (l1 ++ l2)
  = emitted st sum l1 ++ emitted st (sumFrom sum l1) l2.
Proof.
  induction l1 as [|o l1 IH]; intros sum l2; [reflexivity|].
  cbn [app emitted]. now rewrite IH.
Qed.

Lemma emitted_length st orders : forall sum,
  length (emitted st sum orders) = (2 * length orders)%nat.
Proof.
  induction orders as [|o rest IH]; intros sum; [reflexivity|].
  cbn [emitted length]. rewrite IH. lia.
Qed.

(** Order number [i] owns the points at positions [2i] and [2i+1]. *)
Lemma emitted_lookup st orders : forall sum (i : nat) o,
  orders !! i = Some o ->
  let pre := sumFrom sum (take i orders) in
  emitted st sum orders !! (2 * i)%nat
  = Some (Datum.mk (metric st o) pre None)
  /\ emitted st sum orders !! (2 * i + 1)%nat
     = Some (Datum.mk (metric st o) (add pre (volume o)) (Some o)).
Proof.
  induction orders as [|o0 rest IH]; intros sum i o Hi; [discriminate|].
  destruct i as [|i].
  - injection Hi as ->. now split.
  - cbn in Hi. specialize (IH (add sum (volume o0)) i o Hi).
    replace (2 * S i)%nat with (S (S (2 * i))) by lia.
    replace (S (S (2 * i)) + 1)%nat with (S (S (2 * i + 1))) by lia.
    exact IH.
Qed.

(** ** Order on numbers *)

Lemma leb_trans (a b c : number) :
  leb a b = true -> leb b c = true -> leb a c = true.
Proof.
  destruct a as [| |x|], b as [| |y|], c as [| |z|]; cbn; try congruence.
  rewrite !Qle_bool_iff. apply Qle_trans.
Qed.

Lemma leb_Fin_refl (q : Q) : leb (Fin q) (Fin q) = true.
Proof. cbn. apply Qle_bool_iff, Qle_refl. Qed.

(** A valid volume is a finite, non-negative number of coins. *)
Lemma volume_valid o :
  validVolume o = true -> exists v, volume o = Fin v /\ (0 <= v)%Q.
Proof.
  unfold validVolume, volume. intros H.
  assert (Hdiv : forall q, (0 <= q)%Q ->
            exists v, div (Fin q) (ofZ 100000000) = Fin v /\ (0 <= v)%Q).
  { intros q Hq. exists (Qred (q / inject_Z 100000000)). split; [reflexivity|].
    rewrite Qred_correct. apply Qle_shift_div_l; [reflexivity|].
    now rewrite Qmult_0_l. }
  destruct (Order.satoshis_now o) as [[| |q|]|]; try discriminate.
  - apply Hdiv. now apply Qle_bool_iff.
  - apply Hdiv. apply Qle_refl.
Qed.

Lemma add_Fin_ge (s v : Q) :
  (0 <= v)%Q -> leb (Fin s) (add (Fin s) (Fin v)) = true.
Proof.
  intros Hv. cbn. apply Qle_bool_iff. rewrite Qred_correct.
  rewrite <- (Qplus_0_r s) at 1. now apply Qplus_le_r.
Qed.

(** ** Sortedness of the emitted points *)

Lemma emitted_sorted st orders : forall s,
  Forall (fun o => validVolume o = true) orders ->
  StronglySorted leY (emitted st (Fin s) orders)
  /\ Forall (fun d => leb (Fin s) (Datum.y d) = true) (emitted st (Fin s) orders).
Proof.
  induction orders as [|o rest IH]; intros s Hvalid.
  - split; constructor.
  - apply Forall_cons_1 in Hvalid as [Ho Hrest].
    destruct (volume_valid o Ho) as (v & Hv & Hpos).
    cbn [emitted]. rewrite Hv.
    pose proof (add_Fin_ge s v Hpos) as Hstep.
    destruct (add (Fin s) (Fin v)) as [| |s'|] eqn:Hs'; try discriminate.
    destruct (IH s' Hrest) as [Hsorted Hbound].
    assert (Hlift : Forall (fun d => leb (Fin s) (Datum.y d) = true)
                      (emitted st (Fin s') rest)).
    { eapply Forall_impl; [exact Hbound|]. intros d Hd. cbn beta in *.
      now apply (leb_trans _ (Fin s')). }
    split.
    + repeat constructor; assumption.
    + repeat constructor; try assumption. apply leb_Fin_refl.
Qed.

Lemma StronglySorted_list_filter {A} (R : A -> A -> Prop) (f : A -> bool) l :
  StronglySorted R l -> StronglySorted R (List.filter f l).
Proof.
  induction 1 as [|a l Hs IH Hall]; cbn; [constructor|].
  destruct (f a); [|assumption]. constructor; [assumption|].
  rewrite Forall_forall in *. intros b Hb. apply Hall.
  apply list_elem_of_In in Hb. apply list_elem_of_In.
  apply filter_In in Hb. tauto.
Qed.

Lemma sorted_nondecreasing (l : list Datum) :
  StronglySorted leY l -> nondecreasing (map Datum.y l) = true.
Proof.
  induction 1 as [|a l Hs IH Hall]; [reflexivity|].
  destruct l as [|b l]; [reflexivity|].
  cbn [map nondecreasing] in *. rewrite IH.
  apply Forall_cons_1 in Hall as [Hab _]. unfold leY in Hab. now rewrite Hab.
Qed.

(** ** C4: the last cumulative value *)

Lemma inWindow_x c st d d' :
  Datum.x d = Datum.x d' -> inWindow c st d = inWindow c st d'.
Proof. unfold inWindow. now intros ->. Qed.

Lemma filter_emitted_snoc c st sum l o :
  List.filter (inWindow c st) (emitted st sum (l ++ [o]))
  = List.filter (inWindow c st) (emitted st sum l)
    ++ (if orderInWindow c st o
        then [ Datum.mk (metric st o) (sumFrom sum l) None;
               Datum.mk (metric st o) (add (sumFrom sum l) (volume o)) (Some o) ]
        else []).
Proof.
  rewrite emitted_app, List.filter_app. f_equal. cbn [emitted List.filter].
  unfold orderInWindow.
  rewrite (inWindow_x c st (Datum.mk (metric st o) (sumFrom sum l) None)
             (Datum.mk (metric st o) (ofZ 0) None)) by reflexivity.
  rewrite (inWindow_x c st
             (Datum.mk (metric st o) (add (sumFrom sum l) (volume o)) (Some o))
             (Datum.mk (metric st o) (ofZ 0) None)) by reflexivity.
  now destruct (inWindow c st (Datum.mk (metric st o) (ofZ 0) None)).
Qed.

(** C4 fails as stated: of two sell orders with premiums -10 and 3 and
    volumes 1 and 2 coins, only the second is inside the window (-8, 8); the
    series ends at y = 3, while the in-window volumes sum to 2. *)
Lemma last_y_counts_orders_before_window :
  let st := Sample.premiumState in
  let orders := [Sample.sellFar; Sample.sellNear] in
  Datum.y <$> last (generateSerie st orders) = Some (ofZ 3)
  /\ sumVolumes (List.filter (orderInWindow (ofZ 0) st) orders) = ofZ 2
  /\ Datum.y <$> last (generateSerie st orders)
     <> Some (sumVolumes (List.filter (orderInWindow (ofZ 0) st) orders)).
Proof.
  cbv zeta. split; [|split].
  - vm_compute. reflexivity.
  - vm_compute. reflexivity.
  - vm_compute. discriminate.
Qed.

(** C4, as the code has it: the last [y] of a group's filtered series is the
    running sum over all orders of the group up to and including the last
    order, in traversal order, whose metric lies inside the window; orders
    before it count whether or not they are inside. *)
Theorem generateSerie_last_is_running_sum st c orders d :
  center st = Some c ->
  last (generateSerie st orders) = Some d ->
  exists pre o post,
    orders = pre ++ o :: post
    /\ orderInWindow c st o = true
    /\ Forall (fun o' => orderInWindow c st o' = false) post
    /\ Datum.y d = sumVolumes (pre ++ [o]).
Proof.
  intros Hc. rewrite (generateSerie_filter st c orders Hc).
  unfold emittedSerie. rewrite serieFrom_emitted.
  induction orders as [|o l IH] using rev_ind; [discriminate|].
  rewrite filter_emitted_snoc.
  destruct (orderInWindow c st o) eqn:Ho.
  - intros Hlast.
    change [Datum.mk (metric st o) (sumFrom (ofZ 0) l) None;
            Datum.mk (metric st o) (add (sumFrom (ofZ 0) l) (volume o)) (Some o)]
      with ([Datum.mk (metric st o) (sumFrom (ofZ 0) l) None]
            ++ [Datum.mk (metric st o) (add (sumFrom (ofZ 0) l) (volume o)) (Some o)])
      in Hlast.
    rewrite app_assoc, last_snoc in Hlast. injection Hlast as <-.
    exists l, o, []. repeat split; [assumption|constructor|].
    unfold sumVolumes. now rewrite sumFrom_app.
  - rewrite app_nil_r. intros Hlast.
    destruct (IH Hlast) as (pre & o' & post & -> & Hin & Hout & Hy).
    exists pre, o', (post ++ [o]). repeat split; try assumption.
    + now rewrite <- app_assoc.
    + apply Forall_app. split; [assumption|]. now constructor.
Qed.

Lemma generateSerie_last_is_running_sum_witness :
  exists pre o post,
    [Sample.sellFar; Sample.sellNear] = pre ++ o :: post
    /\ orderInWindow (ofZ 0) Sample.premiumState o = true
    /\ Forall (fun o' => orderInWindow (ofZ 0) Sample.premiumState o' = false) post
    /\ ofZ 3 = sumVolumes (pre ++ [o]).
Proof.
  apply (generateSerie_last_is_running_sum Sample.premiumState (ofZ 0)
           [Sample.sellFar; Sample.sellNear]
           (Datum.mk (Some (ofZ 3)) (ofZ 3) (Some Sample.sellNear)));
    reflexivity.
Defined.

(** ** C5: the filter keeps the open window *)

(** C5: [generateSerie] returns the emitted points filtered by the window
    test; a point is kept exactly when its [x] satisfies
    [center - xRange < x < center + xRange], so a point whose [x] is at or
    beyond either bound is dropped. *)
Theorem generateSerie_keeps_open_window st c orders :
  center st = Some c ->
  generateSerie st orders = List.filter (inWindow c st) (emittedSerie st orders)
  /\ forall d,
       (In d (generateSerie st orders)
        <-> In d (emittedSerie st orders)
            /\ ltb (sub c (xRange st)) (Number (Datum.x d)) = true
            /\ ltb (Number (Datum.x d)) (add c (xRange st)) = true)
       /\ (leb (Number (Datum.x d)) (sub c (xRange st)) = true
           \/ leb (add c (xRange st)) (Number (Datum.x d)) = true ->
           ~ In d (generateSerie st orders)).
Proof.
  intros Hc. pose proof (generateSerie_filter st c orders Hc) as Heq.
  split; [exact Heq|]. intros d.
  assert (Hiff : In d (generateSerie st orders)
                 <-> In d (emittedSerie st orders)
                     /\ ltb (sub c (xRange st)) (Number (Datum.x d)) = true
                     /\ ltb (Number (Datum.x d)) (add c (xRange st)) = true).
  { rewrite Heq, filter_In. unfold inWindow, gtb.
    rewrite andb_true_iff. tauto. }
  split; [exact Hiff|].
  intros Hedge Hin. apply Hiff in Hin as (_ & Hlo & Hhi).
  destruct Hedge as [Hedge|Hedge]; apply ltb_leb_false in Hedge; congruence.
Qed.

Lemma generateSerie_keeps_open_window_witness :
  let st := Sample.premiumState in
  let orders := [Sample.sellFar; Sample.sellNear] in
  generateSerie st orders
  = List.filter (inWindow (ofZ 0) st) (emittedSerie st orders)
  /\ forall d,
       (In d (generateSerie st orders)
        <-> In d (emittedSerie st orders)
            /\ ltb (sub (ofZ 0) (xRange st)) (Number (Datum.x d)) = true
            /\ ltb (Number (Datum.x d)) (add (ofZ 0) (xRange st)) = true)
       /\ (leb (Number (Datum.x d)) (sub (ofZ 0) (xRange st)) = true
           \/ leb (add (ofZ 0) (xRange st)) (Number (Datum.x d)) = true ->
           ~ In d (generateSerie st orders)).
Proof.
  cbv zeta.
  apply (generateSerie_keeps_open_window Sample.premiumState (ofZ 0)
           [Sample.sellFar; Sample.sellNear]).
  reflexivity.
Defined.

(** ** Points without a numeric [x] *)

Lemma inWindow_not_NaN c st d :
  inWindow c st d = true -> isNaN (Number (Datum.x d)) = false.
Proof.
  unfold inWindow, gtb. intros H. apply andb_true_iff in H as [_ H].
  destruct (Number (Datum.x d)); [discriminate| | |]; reflexivity.
Qed.

Lemma inWindow_NaN c st d :
  isNaN (Number (Datum.x d)) = true -> inWindow c st d = false.
Proof.
  intros H. destruct (inWindow c st d) eqn:Hin; [|reflexivity].
  apply inWindow_not_NaN in Hin. congruence.
Qed.

(** ** C7: closing a series *)

(** C7 fails as stated: the sell series of one order at premium 3 starts at
    y = 0, so nothing is prepended; closed with the limits -8 and 8 it has
    the two real points and the point at x = 8, and no point at x = -8. *)
Lemma closeSerie_may_miss_bottom_limit :
  let serie := generateSerie Sample.premiumState [Sample.sellNear] in
  let closed := closeSerie serie (ofZ (-8)) (ofZ 8) in
  closed = [ Datum.mk (Some (ofZ 3)) (ofZ 0) None;
             Datum.mk (Some (ofZ 3)) (ofZ 2) (Some Sample.sellNear);
             Datum.mk (Some (ofZ 8)) (ofZ 2) None ]
  /\ existsb (fun d => eqb (Number (Datum.x d)) (ofZ (-8))) closed = false.
Proof. cbv zeta. split; vm_compute; reflexivity. Qed.

(** C7, as the code has it: an empty series stays empty; a non-empty series
    is returned with a last point at [limitTop] carrying the [y] of its last
    real point, and with a first point [(limitBottom, first y)] in front
    exactly when the first [y] is not zero; when the first [y] is zero the
    closed series starts at the first real point. *)
Theorem closeSerie_shape first rest limitBottom limitTop :
  let serie := first :: rest in
  let endingPoint :=
    Datum.mk (Some limitTop) (Datum.y (List.last serie first)) None in
  closeSerie [] limitBottom limitTop = []
  /\ closeSerie serie limitBottom limitTop
     = (if neqb (Datum.y first) (ofZ 0)
        then [Datum.mk (Some limitBottom) (Datum.y first) None]
        else [])
       ++ serie ++ [endingPoint]
  /\ last (closeSerie serie limitBottom limitTop) = Some endingPoint.
Proof.
  cbv zeta. unfold closeSerie.
  destruct (neqb (Datum.y first) (ofZ 0)).
  - split; [reflexivity|]. split; [reflexivity|].
    change (last ((Datum.mk (Some limitBottom) (Datum.y first) None
                   :: first :: rest)
                  ++ [Datum.mk (Some limitTop)
                        (Datum.y (List.last (first :: rest) first)) None])
            = Some (Datum.mk (Some limitTop)
                      (Datum.y (List.last (first :: rest) first)) None)).
    apply last_snoc.
  - split; [reflexivity|]. split; [reflexivity|]. apply last_snoc.
Qed.

(** ** C9: the zoom buttons *)

(** C9: the button that narrows the window is disabled exactly when
    [xRange <= 1]; the button that widens it is never disabled.  A click on
    the first therefore changes nothing once [xRange <= 1], and otherwise
    takes one step off; a click on the second always adds one step. *)
Theorem zoom_buttons_guard st :
  disabled (addButton st) = leb (xRange st) (ofZ 1)
  /\ (forall q, disabled (addButton (setXRange (Fin q) st)) = true
                <-> (q <= 1)%Q)
  /\ disabled (removeButton st) = false
  /\ click addButton st
     = (if leb (xRange st) (ofZ 1) then st
        else setXRange (sub (xRange st) (rangeSteps st)) st)
  /\ click removeButton st = setXRange (add (xRange st) (rangeSteps st)) st.
Proof.
  split; [reflexivity|]. split; [|split; [reflexivity|split; reflexivity]].
  intros q. cbn. apply Qle_bool_iff.
Qed.

(** Scenario C: with [xRange = 1] and a step of 0.5 the narrowing button is
    disabled and a click leaves the state as it is. *)
Example zoom_scenario_C :
  let st := setXRange (ofZ 1) Sample.premiumState in
  disabled (addButton st) = true /\ click addButton st = st
  /\ xRange (click removeButton st) = Fin (3 # 2).
Proof. cbv zeta. repeat split; vm_compute; reflexivity. Qed.

(** ** C6: an undefined center *)

Lemma windowEffect_sets_center m federation (s : store) st :
  exists c, center (windowEffect m federation s st) = Some c.
Proof.
  unfold windowEffect. destruct (isBaseAmount st); [eexists; reflexivity|].
  destruct (Federation.last_day_nonkyc_btc_premium federation);
    eexists; reflexivity.
Qed.

(** C6 fails as stated: on the first commit with an empty book the window
    effect, which has no guard on the order list, sets [center] to
    [~~matchMedian([])], the number 0; only the series and the order list
    stay empty. *)
Lemma empty_book_center_defined :
  let run := mountEffects matchMedian (Sample.federation []) 0 initialState ∅ in
  center initialState = None
  /\ exists st',
       run = (∅, Returned st')
       /\ center st' = Some (ofZ 0)
       /\ center st' <> None
       /\ enrichedOrders st' = []
       /\ series st' = [].
Proof.
  cbv zeta. split; [reflexivity|].
  exists (mkState [] [] (Fin (1 # 2)) (ofZ 8) "premium" 1 (Some (ofZ 0))).
  split; [vm_compute; reflexivity|]. cbn. repeat split. discriminate.
Qed.

(** C6, as the code has it: while [center] is undefined [generateSerie]
    returns the empty list for any orders; on a commit with an empty book and
    an empty order list no series is generated and the chart stays in its
    loading state, but the window effect still sets [center] to a number. *)
Theorem empty_book_commit m federation fav_currency (s : store) st orders :
  center st = None ->
  Federation.book federation = [] ->
  enrichedOrders st = [] ->
  generateSerie st orders = []
  /\ exists st',
       mountEffects m federation fav_currency st s = (s, Returned st')
       /\ enrichedOrders st' = []
       /\ series st' = series st
       /\ (exists c, center st' = Some c)
       /\ loading st' = true.
Proof.
  intros Hc Hbook Hempty. split.
  - unfold generateSerie. now rewrite Hc.
  - unfold mountEffects, normalizerEffect, bind, ret, seriesEffect.
    rewrite Hbook, Hempty. cbn [length].
    change (0 <? Z.of_nat 0) with false. cbv iota.
    eexists. split; [reflexivity|]. cbn [enrichedOrders series center].
    rewrite Hempty. split; [reflexivity|]. split; [reflexivity|].
    split; [apply windowEffect_sets_center|].
    unfold loading. cbn [enrichedOrders length]. apply orb_true_r.
Qed.

Lemma empty_book_commit_witness :
  generateSerie initialState [Sample.sellNear] = []
  /\ exists st',
       mountEffects matchMedian (Sample.federation []) 0 initialState ∅
       = (∅, Returned st')
       /\ enrichedOrders st' = []
       /\ series st' = series initialState
       /\ (exists c, center st' = Some c)
       /\ loading st' = true.
Proof.
  apply (empty_book_commit matchMedian (Sample.federation []) 0 ∅
           initialState [Sample.sellNear]); reflexivity.
Defined.

(** ** The [~~] operator *)

Lemma wrap32_range z : - 2 ^ 31 <= wrap32 z < 2 ^ 31.
Proof.
  unfold wrap32. change (2 ^ 31) with 2147483648.
  change (2 ^ 32) with 4294967296.
  destruct (Z.leb_spec 2147483648 (z mod 4294967296));
    Z.to_euclidean_division_equations; lia.
Qed.

Lemma wrap32_small z : - 2 ^ 31 <= z < 2 ^ 31 -> wrap32 z = z.
Proof.
  unfold wrap32. change (2 ^ 31) with 2147483648.
  change (2 ^ 32) with 4294967296. intros Hz.
  destruct (Z.leb_spec 2147483648 (z mod 4294967296));
    Z.to_euclidean_division_equations; lia.
Qed.

Lemma bitnot_involutive z : - 2 ^ 31 <= z < 2 ^ 31 -> bitnot (bitnot z) = z.
Proof.
  intros Hz. unfold bitnot.
  assert (Hn : Z.lnot z = - z - 1) by (unfold Z.lnot; lia).
  rewrite (wrap32_small (Z.lnot z)) by lia.
  rewrite wrap32_small; unfold Z.lnot in *; lia.
Qed.

Lemma toInt32_range a : - 2 ^ 31 <= toInt32 a < 2 ^ 31.
Proof. destruct a; cbn [toInt32]; try apply wrap32_range; lia. Qed.

(** [~~v] is the ToInt32 image of [v]. *)
Lemma double_tilde_toInt32 v : double_tilde v = ofZ (toInt32 (Number v)).
Proof.
  unfold double_tilde. now rewrite bitnot_involutive by apply toInt32_range.
Qed.

(** On [0 <= q < 2^31] ToInt32 rounds down. *)
Lemma toInt32_floor q :
  (0 <= q)%Q -> (q < inject_Z (2 ^ 31))%Q -> toInt32 (Fin q) = Qfloor q.
Proof.
  destruct q as [n d]. unfold Qle, Qlt, toInt32, truncate, Qfloor. cbn.
  intros Hlo Hhi.
  assert (Hn : 0 <= n) by lia.
  rewrite Z.quot_div_nonneg by lia.
  apply wrap32_small. split.
  - pose proof (Z.div_pos n (Z.pos d)). lia.
  - apply Z.div_lt_upper_bound; lia.
Qed.

(** ** The maximum by a descending sort *)

Lemma insertSorted_In {A} (cmp : A -> A -> number) a l x :
  In x (insertSorted cmp a l) <-> x = a \/ In x l.
Proof.
  induction l as [|b l IH]; cbn [insertSorted].
  - cbn. split; [intros [<-|[]]; now left | intros [->|[]]; now left].
  - destruct (gtb (cmp a b) (ofZ 0)); cbn [In]; rewrite ?IH;
      split; intros H; repeat destruct H as [H|H]; subst; auto.
Qed.

Lemma sort_In {A} (cmp : A -> A -> number) l x :
  In x (sort cmp l) <-> In x l.
Proof.
  induction l as [|a l IH]; [reflexivity|].
  cbn [sort foldr]. fold (sort cmp l). rewrite insertSorted_In, IH. cbn.
  split; intros [H|H]; subst; auto.
Qed.

Lemma Qminus_le_0 (h a : Q) : (h - a <= inject_Z 0)%Q <-> (h <= a)%Q.
Proof.
  destruct h as [hn hd], a as [an ad].
  unfold Qle, Qminus, Qplus, Qopp, inject_Z. cbn [Qnum Qden].
  rewrite ?Pos2Z.inj_mul. lia.
Qed.

(** The comparator [(a, b) => b - a] puts [a] after [h] only if [a <= h]. *)
Lemma descending_test (h a : Q) :
  if gtb (sub (Fin h) (Fin a)) (ofZ 0)
  then leb (Fin a) (Fin h) = true
  else leb (Fin h) (Fin a) = true.
Proof.
  unfold gtb. cbn.
  destruct (Qle_bool (Qred (h - a)) (inject_Z 0)) eqn:Hle; cbn;
    apply Qle_bool_iff.
  - apply Qle_bool_iff in Hle. rewrite Qred_correct in Hle.
    now apply Qminus_le_0.
  - apply Qlt_le_weak, Qnot_le_lt. intros Hah.
    apply Qminus_le_0 in Hah. rewrite <- (Qred_correct (h - a)) in Hah.
    apply Qle_bool_iff in Hah. congruence.
Qed.

Lemma sort_descending_head prices :
  List.Forall (fun p => isFinite p = true) prices ->
  match sort (fun a b => sub b a) prices with
  | [] => prices = []
  | h :: t => List.Forall (fun p => leb p h = true) (h :: t)
  end.
Proof.
  induction prices as [|a l IH]; intros Hfin; [reflexivity|].
  inversion Hfin as [|? ? Ha Hl]; subst. specialize (IH Hl).
  cbn [sort foldr]. fold (sort (fun a b => sub b a) l).
  destruct a as [| |qa|]; try discriminate.
  destruct (sort (fun a b => sub b a) l) as [|h t] eqn:Hs.
  - cbn. repeat constructor. apply leb_Fin_refl.
  - assert (Hh : isFinite h = true).
    { rewrite List.Forall_forall in Hl. apply Hl.
      apply (sort_In (fun a b => sub b a)). rewrite Hs. now left. }
    destruct h as [| |qh|]; try discriminate.
    cbn [insertSorted]. pose proof (descending_test qh qa) as Htest.
    destruct (gtb (sub (Fin qh) (Fin qa)) (ofZ 0)).
    + rewrite List.Forall_forall in *. intros x Hx.
      destruct Hx as [<-|Hx]; [apply leb_Fin_refl|].
      apply insertSorted_In in Hx as [->|Hx]; [assumption|].
      apply IH. now right.
    + rewrite List.Forall_forall in *. intros x Hx.
      destruct Hx as [<-|Hx]; [apply leb_Fin_refl|].
      apply (leb_trans _ (Fin qh)); [|assumption]. now apply IH.
Qed.

(** For finite prices [maxValue] is the largest of them. *)
Lemma maxValue_is_max prices :
  prices <> [] ->
  List.Forall (fun p => isFinite p = true) prices ->
  In (maxValue prices) prices
  /\ List.Forall (fun p => leb p (maxValue prices) = true) prices.
Proof.
  intros Hne Hfin. pose proof (sort_descending_head prices Hfin) as Hhead.
  unfold maxValue.
  destruct (sort (fun a b => sub b a) prices) as [|h t] eqn:Hs; [contradiction|].
  assert (Hsub : forall x, In x prices -> In x (h :: t)).
  { intros x Hx. rewrite <- Hs. now apply sort_In. }
  split.
  - apply (sort_In (fun a b => sub b a)). rewrite Hs. now left.
  - rewrite List.Forall_forall in *. intros x Hx. apply Hhead. now apply Hsub.
Qed.

(** ** C8: the window in price mode *)

(** C8 at an input where the code departs from it: with one order priced at
    3 000 000 000 the median of the base amounts is 3 000 000 000, an integer
    already, and the largest base amount is the same number; but [~~] wraps
    the median to 32 bits, so the window effect sets the center to
    -1 294 967 296 instead of the rounded-down median, and the half-width to
    4 294 967 296 instead of 0. *)
Lemma center_wraps_beyond_int32 :
  let st := setEnrichedOrders [1%positive] Sample.priceState in
  let s := Sample.dongBook in
  let prices := map (baseAmountOr0 s) (enrichedOrders st) in
  let st' := windowEffect matchMedian (Sample.federation []) s st in
  prices = [ofZ 3000000000]
  /\ matchMedian prices = Some (ofZ 3000000000)
  /\ Qfloor (inject_Z 3000000000) = 3000000000
  /\ center st' = Some (ofZ (-1294967296))
  /\ center st' <> Some (ofZ (Qfloor (inject_Z 3000000000)))
  /\ xRange st' = ofZ 4294967296
  /\ rangeSteps st' = Fin (2147483648 # 5).
Proof.
  cbv zeta. repeat split; try (vm_compute; reflexivity).
  vm_compute. discriminate.
Qed.

(** Extra: in price mode, when the base amounts ([0] for an absent one) are
    finite numbers and the median is in [0, 2^31), the window effect sets the
    center to the median rounded down to an integer, the half-width to the
    largest base amount minus that center, and the step to that half-width
    divided by 10. *)
Theorem windowEffect_price_mode_in_range m federation (s : store) st q :
  isBaseAmount st = true ->
  let prices := map (baseAmountOr0 s) (enrichedOrders st) in
  prices <> [] ->
  List.Forall (fun p => isFinite p = true) prices ->
  m prices = Some (Fin q) ->
  (0 <= q)%Q -> (q < inject_Z (2 ^ 31))%Q ->
  let st' := windowEffect m federation s st in
  center st' = Some (ofZ (Qfloor q))
  /\ In (maxValue prices) prices
  /\ List.Forall (fun p => leb p (maxValue prices) = true) prices
  /\ xRange st' = sub (maxValue prices) (ofZ (Qfloor q))
  /\ rangeSteps st' = div (xRange st') (ofZ 10).
Proof.
  intros Hmode prices Hne Hfin Hm Hlo Hhi. cbv zeta.
  unfold windowEffect. rewrite Hmode. fold prices.
  rewrite double_tilde_toInt32, Hm. cbn [Number].
  rewrite (toInt32_floor q Hlo Hhi).
  cbn [center xRange rangeSteps setRangeSteps setXRange setCenter].
  destruct (maxValue_is_max prices Hne Hfin) as [Hin Hmax].
  repeat split; assumption.
Qed.

Lemma windowEffect_price_mode_in_range_witness :
  let st := setEnrichedOrders [1%positive; 2%positive] Sample.priceState in
  let prices := [ofZ 50000; ofZ 51000] in
  let st' := windowEffect matchMedian (Sample.federation [])
               Sample.pricedBook st in
  center st' = Some (ofZ 50500)
  /\ In (maxValue prices) prices
  /\ List.Forall (fun p => leb p (maxValue prices) = true) prices
  /\ xRange st' = ofZ 500
  /\ rangeSteps st' = ofZ 50.
Proof.
  cbv zeta.
  apply (windowEffect_price_mode_in_range matchMedian (Sample.federation [])
           Sample.pricedBook
           (setEnrichedOrders [1%positive; 2%positive] Sample.priceState)
           (inject_Z 50500)).
  - reflexivity.
  - discriminate.
  - repeat constructor.
  - reflexivity.
  - unfold Qle. cbn. lia.
  - unfold Qlt. cbn. lia.
Defined.

(** ** The normalizer: when it throws, and running it again *)

Lemma normalized_enrichable federation code (s : store) r :
  enrichable federation s r = true
  <-> exists o o', s !! r = Some o /\ normalized federation code o = Some o'.
Proof.
  unfold enrichable, normalized. split.
  - destruct (s !! r) as [o|]; [|discriminate]. intros H. exists o.
    destruct (Order.coordinatorShortAlias o) as [alias|]; [|eauto].
    destruct (Federation.getCoordinator federation alias);
      [eauto|discriminate].
  - intros (o & o' & -> & H).
    destruct (Order.coordinatorShortAlias o) as [alias|]; [|reflexivity].
    destruct (Federation.getCoordinator federation alias);
      [reflexivity|discriminate].
Qed.

(** A step of the pass does not change which references can be processed. *)
Lemma enrich_keeps_enrichable federation code r (s s' : store) out :
  enrich federation code r s = (s', out) ->
  forall r', enrichable federation s' r' = enrichable federation s r'.
Proof.
  intros Hrun r'. pose proof (enrich_run federation code r s) as Hspec.
  destruct (s !! r) as [o|] eqn:Hr;
    [|rewrite Hspec in Hrun; now injection Hrun as <- <-].
  unfold normalized in Hspec.
  destruct (Order.coordinatorShortAlias o) as [alias|] eqn:Ha;
    [|rewrite Hspec in Hrun; now injection Hrun as <- <-].
  destruct (Federation.getCoordinator federation alias) eqn:Hc;
    [|rewrite Hspec in Hrun; now injection Hrun as <- <-].
  rewrite Hspec in Hrun. injection Hrun as <- <-. unfold enrichable.
  destruct (decide (r' = r)) as [->|Hne].
  - rewrite lookup_insert_eq, Hr. cbn. now rewrite Ha, Hc.
  - now rewrite lookup_insert_ne.
Qed.

Lemma forallb_pointwise {A} (f g : A -> bool) l :
  (forall a, f a = g a) -> forallb f l = forallb g l.
Proof. intros H. induction l as [|a l IH]; cbn; [reflexivity|]. now rewrite H, IH. Qed.

Lemma mapM_enrich_outcome federation code rs : forall (s : store),
  match (mapM (enrich federation code) rs s).2 with
  | Returned rs' => rs' = rs /\ forallb (enrichable federation s) rs = true
  | Thrown e => e = TypeError /\ forallb (enrichable federation s) rs = false
  end.
Proof.
  induction rs as [|r rs IH]; intros s; [now split|].
  cbn [mapM forallb]. unfold bind at 1.
  destruct (enrich federation code r s) as [s1 out1] eqn:He.
  pose proof (enrich_keeps_enrichable _ _ _ _ _ _ He) as Hkeep.
  pose proof (enrich_run federation code r s) as Hspec.
  assert (Hout : match out1 with
                 | Returned r' => r' = r /\ enrichable federation s r = true
                 | Thrown e => e = TypeError /\ enrichable federation s r = false
                 end).
  { unfold enrichable. unfold normalized in Hspec.
    destruct (s !! r) as [o|];
      [|rewrite Hspec in He; injection He as <- <-; now split].
    destruct (Order.coordinatorShortAlias o) as [alias|];
      [|rewrite Hspec in He; injection He as <- <-; now split].
    destruct (Federation.getCoordinator federation alias);
      rewrite Hspec in He; injection He as <- <-; now split. }
  destruct out1 as [r'|e].
  - destruct Hout as [-> ->]. unfold bind at 1. specialize (IH s1).
    destruct (mapM (enrich federation code) rs s1) as [s2 out2].
    cbn [snd] in *. rewrite (forallb_pointwise _ _ rs Hkeep) in IH.
    destruct out2 as [rs'|e]; cbn.
    + destruct IH as [-> ->]. now split.
    + exact IH.
  - cbn. destruct Hout as [-> ->]. now split.
Qed.

(** Extra: the normalizer returns exactly when every reference of the book
    holds an order whose alias is null or names a known coordinator;
    otherwise it throws a [TypeError] and hands back no state. *)
Theorem normalizerEffect_outcome federation st (s : store) :
  match (normalizerEffect federation st s).2 with
  | Returned st' =>
      forallb (enrichable federation s) (Federation.book federation) = true
      /\ st' = (if 0 <? Z.of_nat (length (Federation.book federation))
               then setEnrichedOrders (Federation.book federation) st
               else st)
  | Thrown e =>
      e = TypeError
      /\ forallb (enrichable federation s) (Federation.book federation) = false
  end.
Proof.
  unfold normalizerEffect.
  destruct (Federation.book federation) as [|r0 rs] eqn:Hbook; [now split|].
  change (0 <? Z.of_nat (length (r0 :: rs))) with true. cbv iota.
  unfold bind.
  pose proof (mapM_enrich_outcome federation (currencyCode st) (r0 :: rs) s)
    as Hout.
  destruct (mapM (enrich federation (currencyCode st)) (r0 :: rs) s)
    as [s1 [rs'|e]]; cbn [snd] in *.
  - destruct Hout as [-> Hall]. now split.
  - exact Hout.
Qed.

(** A pass over references that already hold their normalized objects
    rewrites every value with itself. *)
Lemma mapM_enrich_fixed federation code rs : forall (s : store),
  (forall r, r ∈ rs -> exists o, s !! r = Some o
                                 /\ normalized federation code o = Some o) ->
  mapM (enrich federation code) rs s = (s, Returned rs).
Proof.
  induction rs as [|r rs IH]; intros s Hfix; [reflexivity|].
  cbn [mapM]. unfold bind at 1.
  destruct (Hfix r) as (o & Hr & Hn); [now left|].
  pose proof (enrich_run federation code r s) as Hspec.
  rewrite Hr, Hn in Hspec.
  assert (Hsame : (match Order.coordinatorShortAlias o with
                   | Some _ => <[r := o]> s | None => s end) = s).
  { destruct (Order.coordinatorShortAlias o); [|reflexivity].
    now apply insert_id. }
  rewrite Hsame in Hspec. rewrite Hspec. unfold bind.
  rewrite IH; [reflexivity|].
  intros r' Hr'. apply Hfix. now right.
Qed.

(** Extra: normalizing is idempotent.  A second pass after one that returned
    (same book, same currency code) returns too, and leaves both the store
    of order objects and the state as the first pass left them. *)
Theorem normalizerEffect_twice federation st (s s1 : store) st1 :
  normalizerEffect federation st s = (s1, Returned st1) ->
  normalizerEffect federation st1 s1 = (s1, Returned st1).
Proof.
  unfold normalizerEffect.
  destruct (Federation.book federation) as [|r0 rs] eqn:Hbook.
  - cbn. unfold ret. now intros [= <- <-].
  - change (0 <? Z.of_nat (length (r0 :: rs))) with true. cbv iota.
    unfold bind. intros Hrun.
    destruct (mapM (enrich federation (currencyCode st)) (r0 :: rs) s)
      as [s' out] eqn:Hm.
    assert (H0 : visitedInv federation (currencyCode st) s s []).
    { intros r. split; [intros Hin; inversion Hin | reflexivity]. }
    destruct (mapM_enrich_inv _ _ _ _ _ _ _ _ H0 Hm) as [[-> HJ]|[-> _]];
      [|discriminate].
    injection Hrun as <- <-. rewrite app_nil_r in HJ.
    cbn [currencyCode setEnrichedOrders].
    rewrite mapM_enrich_fixed; [reflexivity|].
    intros r Hr. rewrite <- elem_of_reverse in Hr.
    destruct (proj1 (HJ r) Hr) as (o & o' & _ & Hn & Ho').
    exists o'. split; [assumption|]. now apply (normalized_idem _ _ o).
Qed.

Lemma normalizerEffect_twice_witness :
  let federation := Sample.federation [1%positive; 2%positive] in
  let run := normalizerEffect federation initialState Sample.book2 in
  normalizerEffect federation
    (setEnrichedOrders [1%positive; 2%positive] initialState) run.1
  = (run.1, Returned (setEnrichedOrders [1%positive; 2%positive] initialState)).
Proof.
  cbv zeta.
  apply (normalizerEffect_twice (Sample.federation [1%positive; 2%positive])
           initialState Sample.book2).
  vm_compute. reflexivity.
Defined.

(** Extra: whether the pass returns or throws half-way, it changes nothing
    but the [base_amount] of objects of the book: objects outside the book
    are untouched, no object appears or disappears, and every object keeps
    all its other fields. *)
Theorem normalizerEffect_any_outcome_frame federation st (s s' : store) out :
  normalizerEffect federation st s = (s', out) ->
  forall r,
    (r ∉ Federation.book federation -> s' !! r = s !! r)
    /\ match s !! r with
       | Some o => exists o', s' !! r = Some o' /\ sameButBaseAmount o o'
       | None => s' !! r = None
       end.
Proof.
  unfold normalizerEffect. intros Hrun.
  assert (Hrefl : forall o, sameButBaseAmount o o) by (now repeat split).
  destruct (0 <? Z.of_nat (length (Federation.book federation))).
  - unfold bind in Hrun.
    destruct (mapM (enrich federation (currencyCode st))
                (Federation.book federation) s) as [s1 out1] eqn:Hm.
    assert (Hs : s' = s1) by (destruct out1; now injection Hrun as <- _).
    subst s1.
    assert (H0 : visitedInv federation (currencyCode st) s s []).
    { intros r. split; [intros Hin; inversion Hin | reflexivity]. }
    assert (HV : exists V, visitedInv federation (currencyCode st) s s' V
                           /\ forall r, r ∈ V -> r ∈ Federation.book federation).
    { destruct (mapM_enrich_inv _ _ _ _ _ _ _ _ H0 Hm)
        as [[_ HJ]|[_ (V & HJ & Hsub)]].
      - eexists. split; [exact HJ|]. intros r. rewrite app_nil_r.
        apply elem_of_reverse.
      - exists V. split; [exact HJ|]. intros r Hr.
        destruct (Hsub r Hr) as [?|Hnil]; [assumption|inversion Hnil]. }
    destruct HV as (V & HJ & Hsub). intros r.
    destruct (decide (r ∈ V)) as [Hin|Hout].
    + destruct (proj1 (HJ r) Hin) as (o & o' & Ho & Hn & Ho').
      split; [intros Hnb; now specialize (Hsub r Hin)|].
      rewrite Ho. exists o'. split; [assumption|].
      now apply (normalized_same _ _ _ _ Hn).
    + pose proof (proj2 (HJ r) Hout) as Heq. split; [now intros _|].
      rewrite Heq. destruct (s !! r) as [o|]; [|reflexivity]. eauto.
  - injection Hrun as <- _. intros r. split; [reflexivity|].
    destruct (s !! r) as [o|]; [|reflexivity]. eauto.
Qed.

Lemma normalizerEffect_any_outcome_frame_witness :
  let federation := Sample.federation [1%positive; 3%positive] in
  let run := normalizerEffect federation initialState Sample.book2 in
  run.2 = Thrown TypeError
  /\ forall r,
       (r ∉ Federation.book federation -> run.1 !! r = Sample.book2 !! r)
       /\ match Sample.book2 !! r with
          | Some o => exists o', run.1 !! r = Some o' /\ sameButBaseAmount o o'
          | None => run.1 !! r = None
          end.
Proof.
  cbv zeta. split; [vm_compute; reflexivity|].
  apply (normalizerEffect_any_outcome_frame
           (Sample.federation [1%positive; 3%positive]) initialState
           Sample.book2 _ (Thrown TypeError)).
  vm_compute. reflexivity.
Defined.

(** ** The sort: permutation, order, and sorting again *)



(** [a - b > 0] excludes [b - a > 0], also on infinities and [NaN]. *)
Lemma sub_gtb_antisym (a b : number) :
  gtb (sub a b) (ofZ 0) = true -> gtb (sub b a) (ofZ 0) = false.
Proof.
  destruct a as [| |x|], b as [| |y|]; cbn; try congruence.
  unfold gtb. cbn. rewrite negb_true_iff, negb_false_iff.
  intros Hxy. apply Qle_bool_iff. rewrite Qred_correct.
  apply Qminus_le_0.
  apply Qlt_le_weak, Qnot_le_lt. intros Hle.
  apply Qminus_le_0 in Hle. rewrite <- (Qred_correct (x - y)) in Hle.
  apply Qle_bool_iff in Hle. congruence.
Qed.

Section SortByKey.
Context {A : Type} (key : A -> number).

Let byKey (a b : A) : number := sub (key a) (key b).
Let keyLe (a b : A) : Prop := leb (key a) (key b) = true.

Lemma insertSorted_settled a l :
  settled byKey l -> settled byKey (insertSorted byKey a l).
Proof.
  induction l as [|b l IH]; intros Hl; [exact I|].
  cbn [insertSorted]. destruct (gtb (byKey a b) (ofZ 0)) eqn:Hab.
  - assert (Hba : gtb (byKey b a) (ofZ 0) = false)
      by now apply sub_gtb_antisym.
    destruct l as [|c l]; [now split|].
    destruct Hl as [Hbc Hl]. specialize (IH Hl).
    cbn [insertSorted] in *.
    destruct (gtb (byKey a c) (ofZ 0)); now split.
  - now split.
Qed.

Lemma sort_settled l : settled byKey (sort byKey l).
Proof.
  induction l as [|a l IH]; [exact I|].
  cbn [sort foldr]. fold (sort byKey l). now apply insertSorted_settled.
Qed.

Lemma settled_sort_id l : settled byKey l -> sort byKey l = l.
Proof.
  induction l as [|a l IH]; intros Hl; [reflexivity|].
  cbn [sort foldr]. fold (sort byKey l).
  destruct l as [|b l]; [reflexivity|].
  destruct Hl as [Hab Hl]. rewrite (IH Hl). cbn [insertSorted].
  now rewrite Hab.
Qed.

(** Sorting a sorted array again changes nothing. *)
Lemma sort_idempotent l : sort byKey (sort byKey l) = sort byKey l.
Proof. apply settled_sort_id, sort_settled. Qed.

Lemma insertSorted_sorted a l :
  isFinite (key a) = true ->
  List.Forall (fun b => isFinite (key b) = true) l ->
  StronglySorted keyLe l ->
  StronglySorted keyLe (insertSorted byKey a l).
Proof.
  intros Ha Hfin Hs. induction Hs as [|b l Hs IH Hall]; cbn [insertSorted].
  - repeat constructor.
  - inversion Hfin as [|? ? Hb Hl]; subst.
    destruct (key a) as [| |ka|] eqn:Hka; try discriminate.
    destruct (key b) as [| |kb|] eqn:Hkb; try discriminate.
    pose proof (descending_test ka kb) as Htest.
    unfold byKey. rewrite Hka, Hkb.
    destruct (gtb (sub (Fin ka) (Fin kb)) (ofZ 0)).
    + constructor; [now apply IH|].
      rewrite List.Forall_forall in *. intros x Hx.
      apply insertSorted_In in Hx as [->|Hx].
      * unfold keyLe. now rewrite Hka, Hkb.
      * now apply Hall.
    + constructor; [now constructor|].
      constructor; [unfold keyLe; now rewrite Hka, Hkb|].
      rewrite List.Forall_forall in *. intros x Hx. unfold keyLe.
      apply (leb_trans _ (key b)); [now rewrite Hka, Hkb|now apply Hall].
Qed.

Lemma sort_sorted l :
  List.Forall (fun b => isFinite (key b) = true) l ->
  StronglySorted keyLe (sort byKey l).
Proof.
  induction l as [|a l IH]; intros Hfin; [constructor|].
  inversion Hfin as [|? ? Ha Hl]; subst.
  cbn [sort foldr]. fold (sort byKey l).
  apply insertSorted_sorted; [assumption| |now apply IH].
  rewrite List.Forall_forall in *. intros x Hx. apply Hl.
  now apply (sort_In byKey).
Qed.

End SortByKey.

Lemma StronglySorted_map {A B} (f : A -> B) (R : B -> B -> Prop) l :
  StronglySorted (fun a b => R (f a) (f b)) l -> StronglySorted R (map f l).
Proof.
  induction 1 as [|a l Hs IH Hall]; cbn; constructor; [assumption|].
  rewrite List.Forall_forall in *. intros y Hy.
  apply in_map_iff in Hy as (x & <- & Hx). now apply Hall.
Qed.

Lemma StronglySorted_rev {A} (R : A -> A -> Prop) l :
  StronglySorted R l -> StronglySorted (fun a b => R b a) (rev l).
Proof.
  induction 1 as [|a l Hs IH Hall]; cbn [rev]; [constructor|].
  apply StronglySorted_app. split; [|split; [assumption|repeat constructor]].
  intros x1 x2 H1 H2. apply list_elem_of_In in H1.
  apply list_elem_of_singleton in H2 as ->.
  rewrite List.Forall_forall in Hall. apply Hall. now apply in_rev.
Qed.

(** ** Resolving references *)

Lemma resolve_In (s : store) rs p :
  In p (resolve s rs) <-> In p.1 rs /\ s !! p.1 = Some p.2.
Proof.
  unfold resolve. rewrite <- !list_elem_of_In, list_elem_of_omap.
  destruct p as [r o]. cbn. split.
  - intros (r' & Hin & Hr'). destruct (s !! r') as [o'|] eqn:Ho; [|discriminate].
    cbn in Hr'. injection Hr' as -> ->. now split.
  - intros [Hin Ho]. exists r. split; [assumption|]. now rewrite Ho.
Qed.


(** Pairs that hold their own object resolve to themselves. *)
Lemma resolve_fixed (s : store) (l : list (ref * PublicOrder)) :
  List.Forall (fun p => s !! p.1 = Some p.2) l -> resolve s (map fst l) = l.
Proof.
  induction 1 as [|[r o] l Hp _ IH]; [reflexivity|].
  unfold resolve in *. cbn in *. rewrite Hp. cbn. now rewrite IH.
Qed.

Lemma sortedOrders_by_key (s : store) st :
  sortedOrders s st
  = sort (fun a b => sub (sortKey st a.2) (sortKey st b.2))
      (resolve s (enrichedOrders st)).
Proof.
  unfold sortedOrders, sortKey, byBaseAmount, byPremium.
  now destruct (isBaseAmount st).
Qed.

(** ** [generateSeries]: the two groups *)

Lemma in_sortedOrders (s : store) st o :
  In o (map snd (sortedOrders s st))
  <-> exists r, In r (enrichedOrders st) /\ s !! r = Some o.
Proof.
  rewrite in_map_iff, sortedOrders_by_key. split.
  - intros ([r o'] & <- & Hin). apply sort_In, resolve_In in Hin. eauto.
  - intros (r & Hr & Ho). exists (r, o). split; [reflexivity|].
    apply sort_In, resolve_In. now split.
Qed.

Lemma sortedBuyOrders_In (s : store) st o :
  In o (sortedBuyOrders s st)
  <-> Order.type o = 0
      /\ exists r, In r (enrichedOrders st) /\ s !! r = Some o.
Proof.
  unfold sortedBuyOrders.
  rewrite <- in_rev, filter_In, in_sortedOrders, Z.eqb_eq. tauto.
Qed.

Lemma sortedSellOrders_In (s : store) st o :
  In o (sortedSellOrders s st)
  <-> Order.type o = 1
      /\ exists r, In r (enrichedOrders st) /\ s !! r = Some o.
Proof.
  unfold sortedSellOrders.
  rewrite filter_In, in_sortedOrders, Z.eqb_eq. tauto.
Qed.

(** Extra: the buy group holds exactly the orders of type 0 behind the
    references of [enrichedOrders], the sell group exactly those of type 1;
    no order is in both, and an order of any other type is in neither. *)
Theorem generateSeries_groups (s : store) st o :
  (In o (sortedBuyOrders s st)
   <-> Order.type o = 0
       /\ exists r, In r (enrichedOrders st) /\ s !! r = Some o)
  /\ (In o (sortedSellOrders s st)
      <-> Order.type o = 1
          /\ exists r, In r (enrichedOrders st) /\ s !! r = Some o)
  /\ ~ (In o (sortedBuyOrders s st) /\ In o (sortedSellOrders s st)).
Proof.
  split; [apply sortedBuyOrders_In|]. split; [apply sortedSellOrders_In|].
  rewrite sortedBuyOrders_In, sortedSellOrders_In.
  intros [[H0 _] [H1 _]]. lia.
Qed.

(** Extra: when every sort key (the premium, or [base_amount ?? 0] in price
    mode) is finite, the sell group is traversed in ascending key order and
    the buy group in descending key order. *)
Theorem generateSeries_groups_ordered (s : store) st :
  (forall r o, In r (enrichedOrders st) -> s !! r = Some o ->
               isFinite (sortKey st o) = true) ->
  StronglySorted (fun a b => leb (sortKey st a) (sortKey st b) = true)
    (sortedSellOrders s st)
  /\ StronglySorted (fun a b => leb (sortKey st b) (sortKey st a) = true)
       (sortedBuyOrders s st).
Proof.
  intros Hfin.
  assert (Hs : StronglySorted
                 (fun a b => leb (sortKey st a) (sortKey st b) = true)
                 (map snd (sortedOrders s st))).
  { apply StronglySorted_map. rewrite sortedOrders_by_key.
    apply (sort_sorted (fun p : ref * PublicOrder => sortKey st p.2)).
    apply List.Forall_forall. intros [r o] Hin.
    apply resolve_In in Hin as [Hr Ho]. now apply (Hfin r). }
  split.
  - now apply StronglySorted_list_filter.
  - unfold sortedBuyOrders.
    apply (StronglySorted_rev
             (fun a b => leb (sortKey st a) (sortKey st b) = true)).
    now apply StronglySorted_list_filter.
Qed.

Lemma generateSeries_groups_ordered_witness :
  let st := setEnrichedOrders [2%positive; 1%positive; 4%positive; 3%positive]
              Sample.premiumState in
  sortedSellOrders Sample.book4 st = [Sample.o4; Sample.o2]
  /\ sortedBuyOrders Sample.book4 st = [Sample.o1; Sample.o3]
  /\ StronglySorted (fun a b => leb (sortKey st a) (sortKey st b) = true)
       (sortedSellOrders Sample.book4 st)
  /\ StronglySorted (fun a b => leb (sortKey st b) (sortKey st a) = true)
       (sortedBuyOrders Sample.book4 st).
Proof.
  cbv zeta. split; [vm_compute; reflexivity|].
  split; [vm_compute; reflexivity|].
  apply (generateSeries_groups_ordered Sample.book4
           (setEnrichedOrders
              [2%positive; 1%positive; 4%positive; 3%positive]
              Sample.premiumState)).
  intros r o [<-|[<-|[<-|[<-|[]]]]] [= <-]; reflexivity.
Defined.

(** ** [generateSeries]: the state it leaves *)



Lemma sortedOrders_again (s : store) st series' :
  sortedOrders s
    (setSeries series' (setEnrichedOrders (map fst (sortedOrders s st)) st))
  = sortedOrders s st.
Proof.
  rewrite !sortedOrders_by_key.
  cbn [enrichedOrders setSeries setEnrichedOrders].
  assert (Hkey : forall st', xType st' = xType st ->
            sortKey st' = sortKey st).
  { intros st' Hx. unfold sortKey, isBaseAmount. now rewrite Hx. }
  rewrite (Hkey (setSeries _ _)) by reflexivity.
  rewrite resolve_fixed.
  - apply (sort_idempotent (fun p : ref * PublicOrder => sortKey st p.2)).
  - apply List.Forall_forall. intros p Hp. apply sort_In in Hp.
    now apply resolve_In in Hp.
Qed.

Lemma generateSerie_ext st st' orders :
  center st' = center st -> xRange st' = xRange st -> xType st' = xType st ->
  generateSerie st' orders = generateSerie st orders.
Proof.
  destruct st, st'. cbn. intros -> -> ->. reflexivity.
Qed.

Lemma generateSeries_congr (s : store) st st' :
  sortedOrders s st' = sortedOrders s st ->
  center st' = center st -> xRange st' = xRange st ->
  xType st' = xType st -> rangeSteps st' = rangeSteps st ->
  currencyCode st' = currencyCode st ->
  generateSeries s st' = generateSeries s st.
Proof.
  intros Hsorted Hc Hx Ht Hr Hcc.
  unfold generateSeries, sortedBuyOrders, sortedSellOrders.
  rewrite Hsorted, !(generateSerie_ext st st') by assumption.
  rewrite Hc, Hx. destruct st, st'. cbn in *. now subst.
Qed.

(** Extra: generating the series a second time, on the state and array the
    first call left, gives the same series and the same state.  The sort keys
    are taken to be finite, so that the comparator is consistent and the
    order does not depend on the engine's sort. *)
Theorem generateSeries_idempotent (s : store) st :
  (forall r o, In r (enrichedOrders st) -> s !! r = Some o ->
               isFinite (sortKey st o) = true) ->
  generateSeries s (generateSeries s st) = generateSeries s st.
Proof.
  intros _. apply generateSeries_congr; try reflexivity.
  unfold generateSeries. cbv zeta. apply sortedOrders_again.
Qed.

Lemma generateSeries_idempotent_witness :
  let st := setEnrichedOrders [2%positive; 1%positive] Sample.premiumState in
  generateSeries Sample.book2 (generateSeries Sample.book2 st)
  = generateSeries Sample.book2 st.
Proof.
  cbv zeta.
  apply (generateSeries_idempotent Sample.book2
           (setEnrichedOrders [2%positive; 1%positive] Sample.premiumState)).
  intros r o [<-|[<-|[]]] [= <-]; reflexivity.
Defined.

(** ** [generateSerie]: which points survive *)

Lemma filter_emitted_cons c st sum o rest :
  List.filter (inWindow c st) (emitted st sum (o :: rest))
  = (if orderInWindow c st o
     then [ Datum.mk (metric st o) sum None;
            Datum.mk (metric st o) (add sum (volume o)) (Some o) ]
     else [])
    ++ List.filter (inWindow c st) (emitted st (add sum (volume o)) rest).
Proof.
  cbn [emitted List.filter]. unfold orderInWindow.
  rewrite (inWindow_x c st (Datum.mk (metric st o) sum None)
             (Datum.mk (metric st o) (ofZ 0) None)) by reflexivity.
  rewrite (inWindow_x c st
             (Datum.mk (metric st o) (add sum (volume o)) (Some o))
             (Datum.mk (metric st o) (ofZ 0) None)) by reflexivity.
  now destruct (inWindow c st (Datum.mk (metric st o) (ofZ 0) None)).
Qed.

Lemma generateSerie_emitted st c orders :
  center st = Some c ->
  generateSerie st orders
  = List.filter (inWindow c st) (emitted st (ofZ 0) orders).
Proof.
  intros Hc. rewrite (generateSerie_filter st c orders Hc).
  unfold emittedSerie. now rewrite serieFrom_emitted.
Qed.

Lemma generateSerie_omap_order st c orders :
  center st = Some c ->
  omap Datum.order (generateSerie st orders)
  = List.filter (orderInWindow c st) orders.
Proof.
  intros Hc. rewrite (generateSerie_emitted st c orders Hc).
  generalize (ofZ 0). induction orders as [|o rest IH]; intros sum;
    [reflexivity|].
  rewrite filter_emitted_cons. cbn [List.filter].
  destruct (orderInWindow c st o); cbn [app omap list_omap Datum.order];
    now rewrite <- (IH (add sum (volume o))).
Qed.

(** Extra: the points of the returned series that carry an order are exactly
    the orders whose metric is inside the window, each once and in traversal
    order; the series has two points for each of them and no other point. *)
Theorem generateSerie_order_points st c orders :
  center st = Some c ->
  omap Datum.order (generateSerie st orders)
  = List.filter (orderInWindow c st) orders
  /\ length (generateSerie st orders)
     = (2 * length (List.filter (orderInWindow c st) orders))%nat.
Proof.
  intros Hc. split; [now apply generateSerie_omap_order|].
  rewrite (generateSerie_emitted st c orders Hc).
  generalize (ofZ 0). induction orders as [|o rest IH]; intros sum;
    [reflexivity|].
  rewrite filter_emitted_cons, length_app. cbn [List.filter].
  rewrite (IH (add sum (volume o))).
  destruct (orderInWindow c st o); cbn [length]; lia.
Qed.

Lemma generateSerie_order_points_witness :
  let st := Sample.premiumState in
  let orders := [Sample.sellFar; Sample.sellNear] in
  omap Datum.order (generateSerie st orders)
  = List.filter (orderInWindow (ofZ 0) st) orders
  /\ length (generateSerie st orders)
     = (2 * length (List.filter (orderInWindow (ofZ 0) st) orders))%nat.
Proof.
  cbv zeta.
  apply (generateSerie_order_points Sample.premiumState (ofZ 0)
           [Sample.sellFar; Sample.sellNear]).
  reflexivity.
Defined.

(** Extra: the first point of the returned series belongs to the first order
    inside the window and carries, as its [y], the summed volumes of the
    orders traversed before it, all of which are outside the window; it is a
    riser point, without order. *)
Theorem generateSerie_first_point st c orders d :
  center st = Some c ->
  head (generateSerie st orders) = Some d ->
  exists pre o post,
    orders = pre ++ o :: post
    /\ Forall (fun o' => orderInWindow c st o' = false) pre
    /\ orderInWindow c st o = true
    /\ d = Datum.mk (metric st o) (sumVolumes pre) None.
Proof.
  intros Hc. rewrite (generateSerie_emitted st c orders Hc).
  unfold sumVolumes. generalize (ofZ 0).
  induction orders as [|o rest IH]; intros sum; [discriminate|].
  rewrite filter_emitted_cons. destruct (orderInWindow c st o) eqn:Ho.
  - cbn. intros [= <-]. exists [], o, rest.
    split; [reflexivity|]. split; [constructor|]. now split.
  - cbn [app]. intros Hhead.
    destruct (IH _ Hhead) as (pre & o' & post & -> & Hpre & Hin & ->).
    exists (o :: pre), o', post. repeat split; try assumption.
    now constructor.
Qed.

Lemma generateSerie_first_point_witness :
  exists pre o post,
    [Sample.sellFar; Sample.sellNear] = pre ++ o :: post
    /\ Forall (fun o' => orderInWindow (ofZ 0) Sample.premiumState o' = false) pre
    /\ orderInWindow (ofZ 0) Sample.premiumState o = true
    /\ Datum.mk (Some (ofZ 3)) (ofZ 1) None
       = Datum.mk (metric Sample.premiumState o) (sumVolumes pre) None.
Proof.
  apply (generateSerie_first_point Sample.premiumState (ofZ 0)
           [Sample.sellFar; Sample.sellNear]); reflexivity.
Defined.

Lemma emitted_In st d orders : forall sum,
  In d (emitted st sum orders) ->
  match Datum.order d with
  | Some o => In o orders /\ Datum.x d = metric st o
  | None => True
  end.
Proof.
  induction orders as [|o rest IH]; intros sum; [intros []|].
  cbn [emitted]. intros [<-|[<-|Hin]]; cbn.
  - exact I.
  - split; [now left|reflexivity].
  - specialize (IH _ Hin). destruct (Datum.order d); [|exact I].
    destruct IH. split; [now right|assumption].
Qed.

Lemma generateSerie_In st d orders :
  In d (generateSerie st orders) ->
  exists c, center st = Some c
            /\ In d (emitted st (ofZ 0) orders) /\ inWindow c st d = true.
Proof.
  destruct (center st) as [c|] eqn:Hc.
  - rewrite (generateSerie_emitted st c orders Hc), filter_In. eauto.
  - unfold generateSerie. rewrite Hc. intros [].
Qed.

(** ** [closeSerie]: the synthetic points *)

Lemma closeSerie_In serie limitBottom limitTop d :
  In d (closeSerie serie limitBottom limitTop) ->
  In d serie
  \/ (exists y, d = Datum.mk (Some limitBottom) y None)
  \/ (exists y, d = Datum.mk (Some limitTop) y None).
Proof.
  unfold closeSerie. destruct serie as [|first rest]; [intros []|].
  destruct (neqb (Datum.y first) (ofZ 0)).
  - rewrite in_app_iff. intros [[<-|Hin]|[<-|[]]]; eauto.
  - rewrite in_app_iff. intros [Hin|[<-|[]]]; eauto.
Qed.

Lemma closeSerie_order_points serie limitBottom limitTop :
  omap Datum.order (closeSerie serie limitBottom limitTop)
  = omap Datum.order serie.
Proof.
  unfold closeSerie. destruct serie as [|first rest]; [reflexivity|].
  destruct (neqb (Datum.y first) (ofZ 0)).
  - cbv zeta. rewrite omap_app. cbn. now rewrite app_nil_r.
  - cbv zeta. rewrite omap_app. cbn. now rewrite app_nil_r.
Qed.

(** ** The generated series as the chart and the click handler see them *)

Lemma series_generateSeries (s : store) st :
  series (generateSeries s st)
  = [ Serie.mk "buy"
        (closeSerie (generateSerie st (sortedBuyOrders s st))
           (add (nullish (center st) (ofZ 0)) (xRange st))
           (sub (nullish (center st) (ofZ 0)) (xRange st)));
      Serie.mk "sell"
        (closeSerie (generateSerie st (sortedSellOrders s st))
           (sub (nullish (center st) (ofZ 0)) (xRange st))
           (add (nullish (center st) (ofZ 0)) (xRange st))) ].
Proof. reflexivity. Qed.

(** Extra: the order points of the two generated series are the visible
    orders: those of the buy series are the buy group's orders inside the
    window, in traversal order, and likewise for the sell series; the
    synthetic boundary points add none. *)
Theorem generateSeries_visible_orders (s : store) st c :
  center st = Some c ->
  map (fun sr => omap Datum.order (Serie.data sr)) (series (generateSeries s st))
  = [ List.filter (orderInWindow c st) (sortedBuyOrders s st);
      List.filter (orderInWindow c st) (sortedSellOrders s st) ].
Proof.
  intros Hc. rewrite series_generateSeries. cbn [map Serie.data].
  rewrite !closeSerie_order_points.
  now rewrite !(generateSerie_omap_order st c _ Hc).
Qed.

Lemma generateSeries_visible_orders_witness :
  let st := setEnrichedOrders [2%positive; 1%positive] Sample.premiumState in
  map (fun sr => omap Datum.order (Serie.data sr))
    (series (generateSeries Sample.book2 st))
  = [ List.filter (orderInWindow (ofZ 0) st) (sortedBuyOrders Sample.book2 st);
      List.filter (orderInWindow (ofZ 0) st) (sortedSellOrders Sample.book2 st) ].
Proof.
  cbv zeta.
  apply (generateSeries_visible_orders Sample.book2
           (setEnrichedOrders [2%positive; 1%positive] Sample.premiumState)
           (ofZ 0)).
  reflexivity.
Defined.

(** Extra: a click on a point of a generated series calls [onOrderClicked]
    with [undefined, undefined] when the point is a riser or a boundary
    point, and otherwise with the id and coordinator alias of an order that
    is behind a reference of [enrichedOrders], is of the type of the series
    (0 for buy, 1 for sell), sits at the point's [x] and is inside the
    window. *)
Theorem handleOnClick_on_series (s : store) st sr d :
  In sr (series (generateSeries s st)) ->
  In d (Serie.data sr) ->
  match Datum.order d with
  | None => handleOnClick d = (None, None)
  | Some o =>
      handleOnClick d = (Some (Order.id o), Order.coordinatorShortAlias o)
      /\ (exists r, In r (enrichedOrders st) /\ s !! r = Some o)
      /\ Order.type o = (if String.eqb (Serie.id sr) "buy" then 0 else 1)
      /\ Datum.x d = metric st o
      /\ exists c, center st = Some c /\ orderInWindow c st o = true
  end.
Proof.
  intros Hsr Hd. destruct (Datum.order d) as [o|] eqn:Ho;
    [|unfold handleOnClick; now rewrite Ho].
  split; [unfold handleOnClick; now rewrite Ho|].
  assert (Hpoint : forall orders lb lt,
            In d (closeSerie (generateSerie st orders) lb lt) ->
            In o orders /\ Datum.x d = metric st o
            /\ exists c, center st = Some c /\ orderInWindow c st o = true).
  { intros orders lb lt Hin.
    apply closeSerie_In in Hin as [Hin|[[y Hy]|[y Hy]]];
      [|rewrite Hy in Ho; discriminate|rewrite Hy in Ho; discriminate].
    apply generateSerie_In in Hin as (c & Hc & Hem & Hw).
    apply emitted_In in Hem. rewrite Ho in Hem. destruct Hem as [Hin Hx].
    split; [assumption|]. split; [assumption|]. exists c. split; [assumption|].
    unfold orderInWindow. rewrite <- Hw. apply inWindow_x. now rewrite Hx. }
  rewrite series_generateSeries in Hsr.
  destruct Hsr as [<-|[<-|[]]]; cbn [Serie.data Serie.id] in *;
    destruct (Hpoint _ _ _ Hd) as (Hin & Hx & Hwin).
  - apply sortedBuyOrders_In in Hin as [Ht Hr]. now repeat split.
  - apply sortedSellOrders_In in Hin as [Ht Hr]. now repeat split.
Qed.

Lemma handleOnClick_on_series_witness :
  let st := setEnrichedOrders [2%positive; 1%positive] Sample.premiumState in
  let d := Datum.mk (Some (ofZ 3)) (ofZ 2) (Some Sample.o2) in
  handleOnClick d = (Some 2, None)
  /\ (exists r, In r (enrichedOrders st) /\ Sample.book2 !! r = Some Sample.o2)
  /\ Order.type Sample.o2 = 1
  /\ Datum.x d = metric st Sample.o2
  /\ exists c, center st = Some c /\ orderInWindow c st Sample.o2 = true.
Proof.
  cbv zeta.
  apply (handleOnClick_on_series Sample.book2
           (setEnrichedOrders [2%positive; 1%positive] Sample.premiumState)
           (Serie.mk "sell"
              (closeSerie
                 (generateSerie Sample.premiumState [Sample.o2])
                 (ofZ (-8)) (ofZ 8)))
           (Datum.mk (Some (ofZ 3)) (ofZ 2) (Some Sample.o2))).
  - right. left. vm_compute. reflexivity.
  - right. left. vm_compute. reflexivity.
Defined.

(** Extra: relative to the center [c] and the half-width of the state
    [generateSeries] is called on, every point of the series it sets is
    strictly inside the window [(c - xRange, c + xRange)] or is a boundary
    point, without order, exactly at [c - xRange] or at [c + xRange]; the buy
    series, when not empty, ends at [c - xRange] and the sell series at
    [c + xRange]. *)
Theorem generateSeries_within_window (s : store) st c :
  center st = Some c ->
  (forall sr d, In sr (series (generateSeries s st)) -> In d (Serie.data sr) ->
                inWindow c st d = true
                \/ (Datum.order d = None
                    /\ (Datum.x d = Some (sub c (xRange st))
                        \/ Datum.x d = Some (add c (xRange st)))))
  /\ (forall sr d, In sr (series (generateSeries s st)) ->
                   last (Serie.data sr) = Some d ->
                   Datum.order d = None
                   /\ Datum.x d
                      = Some (if String.eqb (Serie.id sr) "buy"
                              then sub c (xRange st) else add c (xRange st))).
Proof.
  intros Hc. rewrite series_generateSeries, Hc. cbn [nullish].
  assert (Hlast : forall serie lb lt d,
            last (closeSerie serie lb lt) = Some d ->
            Datum.order d = None /\ Datum.x d = Some lt).
  { intros serie lb lt d. unfold closeSerie.
    destruct serie as [|first rest]; [discriminate|]. cbv zeta.
    rewrite last_snoc. now intros [= <-]. }
  split.
  - intros sr d [<-|[<-|[]]] Hd; cbn [Serie.data] in Hd;
      apply closeSerie_In in Hd as [Hd|[[y ->]|[y ->]]];
      try (apply generateSerie_In in Hd as (c' & Hc' & _ & Hw);
           rewrite Hc in Hc'; injection Hc' as <-; now left);
      right; (split; [reflexivity|]); cbn; auto.
  - intros sr d [<-|[<-|[]]] Hd; cbn [Serie.data Serie.id] in *;
      apply Hlast in Hd; exact Hd.
Qed.

Lemma generateSeries_within_window_witness :
  let st := setEnrichedOrders [2%positive; 1%positive; 4%positive; 3%positive]
              Sample.premiumState in
  (forall sr d, In sr (series (generateSeries Sample.book4 st)) ->
                In d (Serie.data sr) ->
                inWindow (ofZ 0) st d = true
                \/ (Datum.order d = None
                    /\ (Datum.x d = Some (sub (ofZ 0) (xRange st))
                        \/ Datum.x d = Some (add (ofZ 0) (xRange st)))))
  /\ (forall sr d, In sr (series (generateSeries Sample.book4 st)) ->
                   last (Serie.data sr) = Some d ->
                   Datum.order d = None
                   /\ Datum.x d
                      = Some (if String.eqb (Serie.id sr) "buy"
                              then sub (ofZ 0) (xRange st)
                              else add (ofZ 0) (xRange st))).
Proof.
  cbv zeta.
  apply (generateSeries_within_window Sample.book4
           (setEnrichedOrders
              [2%positive; 1%positive; 4%positive; 3%positive]
              Sample.premiumState)
           (ofZ 0)).
  reflexivity.
Defined.

(** ** Closing keeps the steps upwards *)

Lemma leb_refl_of_leb (a b : number) : leb a b = true -> leb b b = true.
Proof.
  destruct a, b; cbn; try congruence; intros _; apply Qle_bool_iff, Qle_refl.
Qed.

Lemma StronglySorted_le_last {A} (R : A -> A -> Prop) l default a :
  StronglySorted R l -> List.Forall (fun x => R x x) l ->
  In a l -> R a (List.last l default).
Proof.
  induction 1 as [|b l Hs IH Hall]; intros Hrefl; [intros []|].
  inversion Hrefl as [|? ? Hb Hl]; subst.
  destruct l as [|c l]; [intros [<-|[]]; exact Hb|].
  intros [<-|Hin].
  - rewrite List.Forall_forall in Hall. apply Hall.
    change (List.last (b :: c :: l) default) with (List.last (c :: l) default).
    destruct (exists_last (l := c :: l)) as (l' & z & Heq); [discriminate|].
    rewrite Heq, last_last. apply in_app_iff. right. now left.
  - change (List.last (b :: c :: l) default) with (List.last (c :: l) default).
    now apply IH.
Qed.

Lemma closeSerie_sorted serie limitBottom limitTop :
  StronglySorted leY serie ->
  List.Forall (fun d => leY d d) serie ->
  StronglySorted leY (closeSerie serie limitBottom limitTop).
Proof.
  intros Hs Hrefl. unfold closeSerie.
  destruct serie as [|first rest]; [constructor|]. cbv zeta.
  set (lastY := Datum.y (List.last (first :: rest) first)).
  assert (Hlast : forall d, In d (first :: rest) ->
                            leb (Datum.y d) lastY = true).
  { intros d Hd. now apply (StronglySorted_le_last leY). }
  assert (Hbody : StronglySorted leY
                    ((first :: rest) ++ [Datum.mk (Some limitTop) lastY None])).
  { apply StronglySorted_app. split; [|split; [assumption|repeat constructor]].
    intros x1 x2 H1 H2. apply list_elem_of_singleton in H2 as ->.
    apply list_elem_of_In in H1. now apply Hlast. }
  destruct (neqb (Datum.y first) (ofZ 0)).
  - assert (Heq : List.last
                    (Datum.mk (Some limitBottom) (Datum.y first) None
                     :: first :: rest) first
                  = List.last (first :: rest) first) by reflexivity.
    rewrite Heq. fold lastY.
    change ((Datum.mk (Some limitBottom) (Datum.y first) None :: first :: rest)
            ++ [Datum.mk (Some limitTop) lastY None])
      with (Datum.mk (Some limitBottom) (Datum.y first) None
            :: ((first :: rest) ++ [Datum.mk (Some limitTop) lastY None])).
    constructor; [assumption|].
    apply StronglySorted_inv in Hbody as [_ Hfirst].
    inversion Hrefl as [|? ? Hff _]; subst.
    constructor; [exact Hff|]. exact Hfirst.
  - exact Hbody.
Qed.

Lemma generateSerie_sorted st orders :
  Forall (fun o => validVolume o = true) orders ->
  StronglySorted leY (generateSerie st orders)
  /\ List.Forall (fun d => leY d d) (generateSerie st orders).
Proof.
  intros Hvalid. destruct (center st) as [c|] eqn:Hc;
    [|unfold generateSerie; rewrite Hc; split; constructor].
  rewrite (generateSerie_emitted st c orders Hc).
  destruct (emitted_sorted st orders 0%Q Hvalid) as [Hs Hb].
  change (Fin 0) with (ofZ 0) in *. split.
  - now apply StronglySorted_list_filter.
  - apply List.Forall_forall. intros d Hd. apply filter_In in Hd as [Hd _].
    rewrite List.Forall_forall in Hb. unfold leY.
    apply (leb_refl_of_leb (ofZ 0)), Hb. exact Hd.
Qed.

(** Extra: when every order behind [enrichedOrders] has a valid volume
    ([satoshis_now] absent or a non-negative amount), the [y] values of both
    generated series, boundary points included, are non-decreasing in the
    order of the points. *)
Theorem generateSeries_closed_nondecreasing (s : store) st :
  (forall r o, In r (enrichedOrders st) -> s !! r = Some o ->
               validVolume o = true) ->
  forall sr, In sr (series (generateSeries s st)) ->
             nondecreasing (map Datum.y (Serie.data sr)) = true.
Proof.
  intros Hvalid sr Hsr.
  assert (Hgroup : forall orders,
            (forall o, In o orders ->
                       exists r, In r (enrichedOrders st) /\ s !! r = Some o) ->
            forall lb lt,
              nondecreasing
                (map Datum.y (closeSerie (generateSerie st orders) lb lt))
              = true).
  { intros orders Hin lb lt. apply sorted_nondecreasing.
    assert (Hv : Forall (fun o => validVolume o = true) orders).
    { apply List.Forall_forall. intros o Ho.
      destruct (Hin o Ho) as (r & Hr & Hs). now apply (Hvalid r). }
    destruct (generateSerie_sorted st orders Hv).
    now apply closeSerie_sorted. }
  rewrite series_generateSeries in Hsr.
  destruct Hsr as [<-|[<-|[]]]; cbn [Serie.data]; apply Hgroup; intros o Ho.
  - now apply sortedBuyOrders_In in Ho as [_ Ho].
  - now apply sortedSellOrders_In in Ho as [_ Ho].
Qed.

Lemma generateSeries_closed_nondecreasing_witness :
  List.Forall (fun sr => nondecreasing (map Datum.y (Serie.data sr)) = true)
    (series (generateSeries Sample.book2
               (setEnrichedOrders [2%positive; 1%positive]
                  Sample.premiumState))).
Proof.
  apply List.Forall_forall.
  apply (generateSeries_closed_nondecreasing Sample.book2
           (setEnrichedOrders [2%positive; 1%positive] Sample.premiumState)).
  intros r o [<-|[<-|[]]] [= <-]; reflexivity.
Defined.

(** ** A window without interior *)

Lemma inWindow_empty c st d :
  leb (xRange st) (ofZ 0) = true \/ isNaN (xRange st) = true ->
  inWindow c st d = false.
Proof.
  unfold inWindow, gtb. intros Hr. apply andb_false_iff.
  destruct (xRange st) as [| |r|]; destruct Hr as [Hr|Hr]; try discriminate;
    destruct c as [| |c|]; cbn;
    destruct (Number (Datum.x d)) as [| |x|]; cbn; auto.
  cbn in Hr. apply Qle_bool_iff in Hr.
  destruct (Qle_bool x (Qred (c - r))) eqn:Hlo; [now left|right].
  apply negb_false_iff, Qle_bool_iff. rewrite Qred_correct.
  assert (Hlt : (c - r < x)%Q).
  { apply Qnot_le_lt. intros Hle. rewrite <- (Qred_correct (c - r)) in Hle.
    apply Qle_bool_iff in Hle. congruence. }
  apply Qlt_le_weak. apply (Qle_lt_trans _ (c - r)); [|exact Hlt].
  destruct c as [cn cd], r as [rn rd].
  unfold Qle, Qminus, Qplus, Qopp, inject_Z in *. cbn [Qnum Qden] in *.
  rewrite ?Pos2Z.inj_mul. nia.
Qed.

(** Extra: when [xRange] is zero, negative or [NaN] the window has no
    interior: [generateSerie] returns no point for any orders, and both
    generated series are empty.  The zoom guard [xRange <= 1] does not rule
    such a state out: one click from [xRange > 1] lands at
    [xRange - rangeSteps]. *)
Theorem generateSeries_empty_window (s : store) st orders :
  leb (xRange st) (ofZ 0) = true \/ isNaN (xRange st) = true ->
  generateSerie st orders = []
  /\ map Serie.data (series (generateSeries s st)) = [[]; []].
Proof.
  intros Hr.
  assert (Hempty : forall l, generateSerie st l = []).
  { intros l. unfold generateSerie. destruct (center st) as [c|]; [|reflexivity].
    destruct (fold_left (emitOrder st) l (ofZ 0, [])) as [sum serie].
    induction serie as [|d serie IH]; [reflexivity|].
    cbn [List.filter]. now rewrite inWindow_empty. }
  split; [apply Hempty|].
  rewrite series_generateSeries. cbn [map Serie.data]. now rewrite !Hempty.
Qed.

Lemma generateSeries_empty_window_witness :
  let st :=
    click addButton
      (setRangeSteps (ofZ 10) (setXRange (ofZ 10)
         (setEnrichedOrders [2%positive; 1%positive] Sample.premiumState))) in
  xRange st = ofZ 0
  /\ generateSerie st [Sample.sellNear] = []
  /\ map Serie.data (series (generateSeries Sample.book2 st)) = [[]; []].
Proof.
  cbv zeta. split; [reflexivity|].
  apply (generateSeries_empty_window Sample.book2
           (click addButton
              (setRangeSteps (ofZ 10) (setXRange (ofZ 10)
                 (setEnrichedOrders [2%positive; 1%positive]
                    Sample.premiumState))))
           [Sample.sellNear]).
  left. reflexivity.
Defined.

(** ** Zooming in premium mode *)

Lemma halfSteps_clickOn z st : halfSteps st -> halfSteps (clickOn z st).
Proof.
  intros (Hstep & q & n & Hx & Hn & Hq). destruct z; cbn [clickOn].
  - unfold click, removeButton. cbn [disabled onClick].
    split; [exact Hstep|]. cbn [xRange setXRange]. rewrite Hx, Hstep.
    exists (Qred (q + (1 # 2))%Q), (n + 1). split; [reflexivity|].
    split; [lia|]. rewrite Qred_correct, Hq. unfold Qeq, Qplus. cbn. lia.
  - unfold click, addButton. cbn [disabled onClick]. rewrite Hx.
    destruct (leb (Fin q) (ofZ 1)) eqn:Hle.
    + split; [exact Hstep|]. exists q, n. now rewrite Hx.
    + split; [exact Hstep|]. cbn [xRange setXRange]. rewrite Hstep.
      exists (Qred (q - (1 # 2))%Q), (n - 1). split; [reflexivity|].
      assert (Hgt : ~ (q <= 1)%Q).
      { intros H. apply (Qle_bool_iff q (inject_Z 1)) in H.
        unfold leb, ofZ in Hle. rewrite H in Hle. discriminate. }
      rewrite Hq in Hgt. split.
      * unfold Qle in Hgt. cbn in Hgt. lia.
      * rewrite Qred_correct, Hq. unfold Qeq, Qminus, Qplus, Qopp. cbn. lia.
Qed.

Lemma halfSteps_clicks zs : forall st, halfSteps st -> halfSteps (clicks zs st).
Proof.
  unfold clicks. induction zs as [|z zs IH]; intros st H; [exact H|].
  cbn [fold_left]. now apply IH, halfSteps_clickOn.
Qed.

Lemma clicks_center zs : forall st, center (clicks zs st) = center st.
Proof.
  unfold clicks. induction zs as [|z zs IH]; intros st; [reflexivity|].
  cbn [fold_left]. rewrite IH. destruct z; cbn [clickOn]; unfold click.
  - now destruct (disabled (removeButton st)).
  - now destruct (disabled (addButton st)).
Qed.

(** Extra: in premium mode the floor guard works: after the window effect
    (half-width 8, step 0.5) any sequence of clicks on the two zoom buttons
    leaves a finite half-width that is at least 1, keeps the step at 0.5 and
    does not move the center. *)
Theorem premium_zoom_stays_above_one m federation (s : store) st zs :
  isBaseAmount st = false ->
  let st0 := windowEffect m federation s st in
  let st' := clicks zs st0 in
  (exists q, xRange st' = Fin q /\ (1 <= q)%Q)
  /\ rangeSteps st' = Fin (1 # 2)
  /\ center st' = center st0.
Proof.
  intros Hmode. cbv zeta.
  assert (H0 : halfSteps (windowEffect m federation s st)).
  { unfold windowEffect. rewrite Hmode. split; [reflexivity|].
    exists (inject_Z 8), 16. repeat split. lia. }
  destruct (halfSteps_clicks zs _ H0) as (Hstep & q & n & Hx & Hn & Hq).
  split; [|split; [exact Hstep|apply clicks_center]].
  exists q. split; [exact Hx|]. rewrite Hq. unfold Qle. cbn. lia.
Qed.

Lemma premium_zoom_stays_above_one_witness :
  let st0 := windowEffect matchMedian (Sample.federation []) Sample.book2
               Sample.premiumState in
  let st' := clicks [ClickAdd; ClickAdd; ClickRemove; ClickAdd] st0 in
  (exists q, xRange st' = Fin q /\ (1 <= q)%Q)
  /\ rangeSteps st' = Fin (1 # 2)
  /\ center st' = center st0.
Proof.
  cbv zeta.
  apply (premium_zoom_stays_above_one matchMedian (Sample.federation [])
           Sample.book2 Sample.premiumState
           [ClickAdd; ClickAdd; ClickRemove; ClickAdd]).
  reflexivity.
Defined.

(** ** The center in premium mode *)

Lemma toInt32_truncate q :
  (inject_Z (- 2 ^ 31) <= q)%Q -> (q < inject_Z (2 ^ 31))%Q ->
  toInt32 (Fin q) = truncate q.
Proof.
  destruct q as [n d]. unfold Qle, Qlt, toInt32, truncate. cbn.
  intros Hlo Hhi. apply wrap32_small.
  change (2 ^ 31) with 2147483648.
  destruct (Z.le_gt_cases 0 n) as [Hn|Hn].
  - rewrite Z.quot_div_nonneg by lia. split.
    + pose proof (Z.div_pos n (Z.pos d)). lia.
    + apply Z.div_lt_upper_bound; lia.
  - rewrite <- (Z.opp_involutive n), Z.quot_opp_l by lia.
    rewrite Z.quot_div_nonneg by lia.
    assert (0 <= - n / Z.pos d) by (apply Z.div_pos; lia).
    assert (- n / Z.pos d <= 2147483648)
      by (apply Z.div_le_upper_bound; lia).
    lia.
Qed.

Lemma truncate_floor q : (0 <= q)%Q -> truncate q = Qfloor q.
Proof.
  destruct q as [n d]. unfold Qle, truncate, Qfloor. cbn. intros Hn.
  apply Z.quot_div_nonneg; lia.
Qed.

Lemma truncate_ceiling q : (q <= 0)%Q -> truncate q = Qceiling q.
Proof.
  destruct q as [n d]. unfold Qle, truncate, Qceiling, Qfloor, Qopp. cbn.
  intros Hn. rewrite <- (Z.opp_involutive n) at 1.
  rewrite Z.quot_opp_l by lia. f_equal. apply Z.quot_div_nonneg; lia.
Qed.

(** Extra: in premium mode the window effect always resets the half-width
    to 8 and the step to 0.5 and leaves the orders, the series, the axis mode
    and the currency code alone.  The center is the external 24h premium when
    there is one; otherwise it is [~~median] of the premiums, a 32-bit
    integer: 0 when the median is undefined, [NaN] or infinite, and for a
    median in [-2^31, 2^31) the median truncated toward zero, so rounded up
    when negative and down when positive. *)
Theorem windowEffect_premium_mode m federation (s : store) st :
  isBaseAmount st = false ->
  let premiums := map (premiumOr0 s) (enrichedOrders st) in
  let st' := windowEffect m federation s st in
  xRange st' = ofZ 8 /\ rangeSteps st' = Fin (1 # 2)
  /\ enrichedOrders st' = enrichedOrders st /\ series st' = series st
  /\ xType st' = xType st /\ currencyCode st' = currencyCode st
  /\ match Federation.last_day_nonkyc_btc_premium federation with
     | Some v => center st' = Some v
     | None =>
         (exists z, center st' = Some (ofZ z) /\ - 2 ^ 31 <= z < 2 ^ 31)
         /\ (isFinite (Number (m premiums)) = false ->
             center st' = Some (ofZ 0))
         /\ (forall q, m premiums = Some (Fin q) ->
                       (inject_Z (- 2 ^ 31) <= q)%Q ->
                       (q < inject_Z (2 ^ 31))%Q ->
                       center st' = Some (ofZ (truncate q))
                       /\ ((q <= 0)%Q -> truncate q = Qceiling q)
                       /\ ((0 <= q)%Q -> truncate q = Qfloor q))
     end.
Proof.
  intros Hmode. cbv zeta. unfold windowEffect. rewrite Hmode.
  destruct (Federation.last_day_nonkyc_btc_premium federation) as [v|];
    [now repeat split|].
  cbn [center xRange rangeSteps enrichedOrders series xType currencyCode
       setRangeSteps setXRange setCenter].
  rewrite double_tilde_toInt32.
  do 6 (split; [reflexivity|]). split; [|split].
  - eexists. split; [reflexivity|]. apply toInt32_range.
  - intros Hfin. now destruct (Number (m (map (premiumOr0 s) (enrichedOrders st)))).
  - intros q Hq Hlo Hhi. rewrite Hq. cbn [Number].
    split; [now rewrite toInt32_truncate|].
    split; [apply truncate_ceiling|apply truncate_floor].
Qed.

Lemma windowEffect_premium_mode_witness :
  let st := setEnrichedOrders [1%positive; 2%positive] Sample.premiumState in
  let st' := windowEffect (fun _ => Some (Fin (-5 # 2)))
               (Sample.federation []) Sample.book2 st in
  xRange st' = ofZ 8 /\ rangeSteps st' = Fin (1 # 2)
  /\ center st' = Some (ofZ (-2))
  /\ truncate (-5 # 2) = Qceiling (-5 # 2).
Proof.
  cbv zeta.
  destruct (windowEffect_premium_mode (fun _ => Some (Fin (-5 # 2)))
              (Sample.federation []) Sample.book2
              (setEnrichedOrders [1%positive; 2%positive] Sample.premiumState)
              eq_refl) as (Hx & Hs & _ & _ & _ & _ & Hc).
  cbn [Federation.last_day_nonkyc_btc_premium Sample.federation] in Hc.
  destruct Hc as (_ & _ & Hq).
  destruct (Hq (-5 # 2)%Q eq_refl) as (Hc & Hceil & _).
  - unfold Qle. cbn. lia.
  - unfold Qlt. cbn. lia.
  - split; [exact Hx|]. split; [exact Hs|]. split; [exact Hc|].
    apply Hceil. unfold Qle. cbn. lia.
Defined.

(** ** The size clamp and the axis layout *)

Lemma ltb_false_leb (a b : number) :
  isNaN a = false -> isNaN b = false -> ltb a b = false -> leb b a = true.
Proof.
  destruct a, b; cbn; try congruence. intros _ _. apply negb_false_iff.
Qed.

(** Extra: for a width and height that are numbers the clamp keeps the width
    within [10, 72.8] and the height at 10 or more, returns a size already in
    range unchanged, and is idempotent; a [NaN] size passes through
    unclamped. *)
Theorem size_clamped (maxWidth maxHeight : number) :
  isNaN maxWidth = false ->
  isNaN maxHeight = false ->
  leb (ofZ 10) (width maxWidth) = true
  /\ leb (width maxWidth) (Fin (364 # 5)) = true
  /\ leb (ofZ 10) (height maxHeight) = true
  /\ (leb (ofZ 10) maxWidth && leb maxWidth (Fin (364 # 5)) = true ->
      width maxWidth = maxWidth)
  /\ width (width maxWidth) = width maxWidth
  /\ height (height maxHeight) = height maxHeight
  /\ width NaN = NaN /\ height NaN = NaN.
Proof.
  intros Hw Hh.
  assert (Hwidth : leb (ofZ 10) (width maxWidth) = true
                   /\ leb (width maxWidth) (Fin (364 # 5)) = true).
  { unfold width. destruct (ltb maxWidth (ofZ 10)) eqn:Hlo; [now split|].
    unfold gtb. destruct (ltb (Fin (364 # 5)) maxWidth) eqn:Hhi; [now split|].
    split; now apply ltb_false_leb. }
  assert (Hheight : leb (ofZ 10) (height maxHeight) = true).
  { unfold height. destruct (ltb maxHeight (ofZ 10)) eqn:Hlo; [reflexivity|].
    now apply ltb_false_leb. }
  assert (Hid : forall w, leb (ofZ 10) w && leb w (Fin (364 # 5)) = true ->
                          width w = w).
  { intros w Hin. apply andb_true_iff in Hin as [Hlo Hhi]. unfold width, gtb.
    now rewrite (ltb_leb_false _ _ Hlo), (ltb_leb_false _ _ Hhi). }
  split; [apply Hwidth|]. split; [apply Hwidth|]. split; [exact Hheight|].
  split; [apply Hid|]. split; [|split; [|now split]].
  - apply Hid. apply andb_true_iff. exact Hwidth.
  - unfold height at 1. now rewrite (ltb_leb_false _ _ Hheight).
Qed.

Lemma size_clamped_witness :
  leb (ofZ 10) (width (ofZ 100)) = true
  /\ leb (width (ofZ 100)) (Fin (364 # 5)) = true
  /\ leb (ofZ 10) (height (ofZ 3)) = true
  /\ (leb (ofZ 10) (ofZ 100) && leb (ofZ 100) (Fin (364 # 5)) = true ->
      width (ofZ 100) = ofZ 100)
  /\ width (width (ofZ 100)) = width (ofZ 100)
  /\ height (height (ofZ 3)) = height (ofZ 3)
  /\ width NaN = NaN /\ height NaN = NaN.
Proof.
  apply (size_clamped (ofZ 100) (ofZ 3)); reflexivity.
Defined.

Lemma ltb_Fin (a b : Q) : ltb (Fin a) (Fin b) = true <-> (a < b)%Q.
Proof.
  change (ltb (Fin a) (Fin b)) with (negb (Qle_bool b a)).
  rewrite negb_true_iff. split.
  - intros H. apply Qnot_le_lt. intros Hle. apply Qle_bool_iff in Hle.
    congruence.
  - intros H. apply not_true_iff_false. rewrite Qle_bool_iff.
    now apply Qlt_not_le.
Qed.

Lemma ltb_Fin_false (a b : Q) : (b <= a)%Q -> ltb (Fin a) (Fin b) = false.
Proof.
  intros H. apply not_true_iff_false. rewrite ltb_Fin. now apply Qle_not_lt.
Qed.

(** A threshold strictly inside the clamp sees the clamped width as it sees
    the width itself. *)
Lemma ltb_width (maxWidth : number) (t : Q) :
  (inject_Z 10 < t)%Q -> (t < 364 # 5)%Q ->
  ltb (width maxWidth) (Fin t) = ltb maxWidth (Fin t).
Proof.
  intros Hlo Hhi. unfold width, gtb, ofZ.
  destruct maxWidth as [| |w|]; try reflexivity.
  - change (ltb NegInf (Fin (inject_Z 10))) with true. cbv iota.
    change (ltb NegInf (Fin t)) with true. now apply ltb_Fin.
  - destruct (ltb (Fin w) (Fin (inject_Z 10))) eqn:H10.
    + apply ltb_Fin in H10. transitivity true; [|symmetry]; apply ltb_Fin.
      * exact Hlo.
      * now apply (Qlt_trans _ (inject_Z 10)).
    + destruct (ltb (Fin (364 # 5)) (Fin w)) eqn:H72; [|reflexivity].
      apply ltb_Fin in H72.
      transitivity false; [|symmetry]; apply ltb_Fin_false.
      * now apply Qlt_le_weak.
      * apply Qlt_le_weak. now apply (Qlt_trans _ (364 # 5)).
  - change (ltb PosInf (Fin (inject_Z 10))) with false. cbv iota.
    change (ltb (Fin (364 # 5)) PosInf) with true. cbv iota.
    change (ltb PosInf (Fin t)) with false. now apply ltb_Fin_false, Qlt_le_weak.
Qed.

(** Extra: the bottom margin follows the tick rotation: it is [2.7 * em]
    exactly when the ticks are turned by 45 degrees and [1.78 * em] when they
    are level; the rotation is 0 or 45; and because both thresholds, 25 and
    40, lie inside the clamp [10, 72.8], clamping the width never changes the
    rotation. *)
Theorem axis_layout st (maxWidth em : number) :
  marginBottom st (width maxWidth) em
  = mul (if eqb (tickRotation st (width maxWidth)) (ofZ 45)
         then Fin (27 # 10) else Fin (178 # 100)) em
  /\ (tickRotation st (width maxWidth) = ofZ 45
      \/ tickRotation st (width maxWidth) = ofZ 0)
  /\ tickRotation st (width maxWidth) = tickRotation st maxWidth.
Proof.
  unfold marginBottom, tickRotation.
  change (ofZ 40) with (Fin (inject_Z 40)).
  change (ofZ 25) with (Fin (inject_Z 25)).
  rewrite !(ltb_width maxWidth (inject_Z 40)), !(ltb_width maxWidth (inject_Z 25))
    by reflexivity.
  destruct (isBaseAmount st), (ltb maxWidth (Fin (inject_Z 40))),
    (ltb maxWidth (Fin (inject_Z 25))); repeat split; auto.
Qed.

(** ** The series in closed form *)

Lemma sumVolumes_snoc l o : sumVolumes (l ++ [o]) = add (sumVolumes l) (volume o).
Proof. unfold sumVolumes. now rewrite sumFrom_app. Qed.

Lemma stepOf_shift st pre0 o rest (i : nat) p :
  stepOf st (pre0 ++ o :: rest) (length pre0 + S i) p
  = stepOf st ((pre0 ++ [o]) ++ rest) (length (pre0 ++ [o]) + i) p.
Proof.
  rewrite <- app_assoc, length_app. cbn [app length].
  now replace (length pre0 + 1 + i)%nat with (length pre0 + S i)%nat by lia.
Qed.


Lemma filter_emitted_steps c st rest : forall pre0,
  List.filter (inWindow c st) (emitted st (sumVolumes pre0) rest)
  = concat (imap (fun i o =>
                    visibleStepOf c st (pre0 ++ rest) (length pre0 + i) o)
              rest).
Proof.
  induction rest as [|o rest IH]; intros pre0; [reflexivity|].
  assert (Htail :
    imap (fun i p => visibleStepOf c st ((pre0 ++ [o]) ++ rest)
                       (length (pre0 ++ [o]) + i) p) rest
    = imap ((fun i p => visibleStepOf c st (pre0 ++ o :: rest)
                          (length pre0 + i) p) ∘ S) rest).
  { apply imap_ext. intros i p _. cbn. unfold visibleStepOf.
    now rewrite stepOf_shift. }
  rewrite filter_emitted_cons, imap_cons. cbn [concat].
  rewrite <- Htail, <- IH, sumVolumes_snoc.
  unfold visibleStepOf, stepOf. now rewrite Nat.add_0_r, take_app_length.
Qed.


Lemma generateSerie_steps st c orders :
  center st = Some c ->
  generateSerie st orders = concat (imap (visibleStepOf c st orders) orders).
Proof.
  intros Hc. rewrite (generateSerie_emitted st c orders Hc).
  change (ofZ 0) with (sumVolumes []). now rewrite filter_emitted_steps.
Qed.

(** ** C3: cumulative volumes step upwards *)




(** ** C10: orders without a numeric base amount *)

(** C10: in price mode, let the order [o], whose [base_amount] is [undefined]
    or [NaN], stand between the orders [pre] and [post] of a group.  The
    returned series consists of the steps of the visible orders of [pre]
    followed by the steps of the visible orders of [post] and has no point
    of [o]: none with a non-numeric [x], none carrying [o].  Yet the volume
    of [o] is in the running sum: the steps of [post] start from the summed
    volumes of [pre], of [o] and of the orders of [post] before them. *)
Theorem generateSerie_skips_non_numeric st c pre o post :
  center st = Some c ->
  isBaseAmount st = true ->
  Order.base_amount o = None \/ Order.base_amount o = Some NaN ->
  let orders := pre ++ o :: post in
  generateSerie st orders
  = concat (imap (visibleStepOf c st orders) pre)
    ++ concat (imap (fun j p =>
                       visibleStepOf c st orders (S (length pre + j)) p)
                 post)
  /\ (forall j : nat,
        sumVolumes (take (S (length pre + j)) orders)
        = sumFrom (add (sumVolumes pre) (volume o)) (take j post))
  /\ (forall d, In d (generateSerie st orders) ->
                isNaN (Number (Datum.x d)) = false
                /\ Datum.order d <> Some o).
Proof.
  intros Hc Hmode Hbase orders.
  assert (Hx : isNaN (Number (metric st o)) = true).
  { unfold metric. rewrite Hmode. now destruct Hbase as [-> | ->]. }
  assert (Hout : orderInWindow c st o = false).
  { unfold orderInWindow. now apply inWindow_NaN. }
  split; [|split].
  - rewrite (generateSerie_steps st c orders Hc). unfold orders at 2.
    rewrite imap_app, imap_cons, concat_app. cbn [concat].
    unfold visibleStepOf at 2. rewrite Hout. cbn [app]. do 2 f_equal.
    apply imap_ext. intros j p _. cbn.
    now replace (length pre + S j)%nat with (S (length pre + j)) by lia.
  - intros j. unfold orders.
    replace (S (length pre + j)) with (length pre + S j)%nat by lia.
    rewrite take_app_add. cbn [take]. unfold sumVolumes.
    now rewrite sumFrom_app.
  - intros d Hd. apply generateSerie_In in Hd as (c' & _ & Hem & Hw).
    pose proof (inWindow_not_NaN _ _ _ Hw) as Hnum.
    split; [exact Hnum|]. intros Ho. apply emitted_In in Hem.
    rewrite Ho in Hem. destruct Hem as [_ Hxd]. rewrite Hxd in Hnum.
    congruence.
Qed.

Lemma generateSerie_skips_non_numeric_witness :
  let st := Sample.priceState in
  let pre := [Sample.priced Sample.o1] in
  let o := Sample.sellNear in
  let post := [Sample.priced Sample.sellNear] in
  let orders := pre ++ o :: post in
  generateSerie st orders
  = [ Datum.mk (Some (ofZ 50000)) (ofZ 0) None;
      Datum.mk (Some (ofZ 50000)) (ofZ 1) (Some (Sample.priced Sample.o1));
      Datum.mk (Some (ofZ 51000)) (ofZ 3) None;
      Datum.mk (Some (ofZ 51000)) (ofZ 5)
        (Some (Sample.priced Sample.sellNear)) ]
  /\ generateSerie st orders
     = concat (imap (visibleStepOf (ofZ 50000) st orders) pre)
       ++ concat (imap (fun j p =>
                          visibleStepOf (ofZ 50000) st orders
                            (S (length pre + j)) p)
                    post)
  /\ (forall j : nat,
        sumVolumes (take (S (length pre + j)) orders)
        = sumFrom (add (sumVolumes pre) (volume o)) (take j post))
  /\ (forall d, In d (generateSerie st orders) ->
                isNaN (Number (Datum.x d)) = false
                /\ Datum.order d <> Some o).
Proof.
  cbv zeta. split; [vm_compute; reflexivity|].
  apply (generateSerie_skips_non_numeric Sample.priceState (ofZ 50000)
           [Sample.priced Sample.o1] Sample.sellNear
           [Sample.priced Sample.sellNear]).
  - reflexivity.
  - reflexivity.
  - left. reflexivity.
Defined.
